(** * IntelliScraper: path similarity matching (intelliscraper/utils.py)

    A shallow embedding of [utils.py] and the properties of its path
    builder, similarity matcher, rule flattener, reverse locator and
    attribute parser.

    Conventions of the model.
    - A Python [str] is a [string]; a character is a code point below 256
      (the Latin-1 range), with the classes [\w], [\s] and the case mapping
      that Python's [re] and [str] use on that range.
    - A Python [dict] is an association list in insertion order with
      distinct keys, as [dict] iterates.
    - The HTML parser is an external collaborator: the functions take the
      parsed tree ([soup]) where the source parses [html] first.
    - The cosine similarity is computed in binary64, with the floats of the
      kernel and in the order of operations of scikit-learn on sparse rows;
      a score is then read as the rational number it denotes. *)

From Stdlib Require Import Bool List Arith NArith ZArith QArith Lia Permutation.
From Stdlib Require Import Ascii String.
From Stdlib Require Import Floats Uint63.
Import ListNotations.

Set Warnings "-register-all".

Close Scope Q_scope.
Open Scope nat_scope.
Open Scope list_scope.
Open Scope string_scope.

(* ================================================================== *)
(** ** Characters *)

Module Char.

Definition ord (c : ascii) : N := N_of_ascii c.

Definition between (lo hi : N) (c : ascii) : bool :=
  ((lo <=? ord c) && (ord c <=? hi))%N.

(** [\w] of [re] on [str] patterns: alphanumerics and the underscore. *)
Definition is_word (c : ascii) : bool :=
  between 48 57 c || between 65 90 c || between 95 95 c || between 97 122 c
  || between 170 170 c || between 178 179 c || between 181 181 c
  || between 185 186 c || between 188 190 c || between 192 214 c
  || between 216 246 c || between 248 255 c.

(** [\s] of [re], which is also what [str.strip()] removes. *)
Definition is_space (c : ascii) : bool :=
  between 9 13 c || between 28 32 c || between 133 133 c || between 160 160 c.

(** [str.lower] on one character. *)
Definition lower (c : ascii) : ascii :=
  if between 65 90 c || between 192 214 c || between 216 222 c
  then ascii_of_N (ord c + 32) else c.

(** [str.isprintable] on one character. *)
Definition is_printable (c : ascii) : bool :=
  negb (between 0 31 c || between 127 160 c || between 173 173 c).

(** The double quote. *)
Definition dquote : ascii := "034"%char.

Definition hex_digit (n : N) : ascii :=
  if (n <? 10)%N then ascii_of_N (48 + n) else ascii_of_N (87 + n).

End Char.

(* ================================================================== *)
(** ** The methods of [str] that the module uses *)

Module Str.

Fixpoint mem (c : ascii) (chars : string) : bool :=
  match chars with
  | EmptyString => false
  | String d rest => Ascii.eqb c d || mem c rest
  end.

Fixpoint prefix (p s : string) : bool :=
  match p, s with
  | EmptyString, _ => true
  | String a p', String b s' => Ascii.eqb a b && prefix p' s'
  | String _ _, EmptyString => false
  end.

(** [sub in s] *)
Fixpoint contains (sub s : string) : bool :=
  prefix sub s ||
  match s with
  | EmptyString => false
  | String _ s' => contains sub s'
  end.

(** [sep.join(parts)] *)
Fixpoint join (sep : string) (parts : list string) : string :=
  match parts with
  | [] => ""
  | [p] => p
  | p :: rest => p ++ sep ++ join sep rest
  end.

(** [s.split(sep)] for a non-empty [sep]: [skip] counts the characters of a
    separator just recognised that are still to be passed over, [cur] is the
    piece being collected. *)
Fixpoint split_go (sep : string) (skip : nat) (cur s : string) : list string :=
  match s with
  | EmptyString => [cur]
  | String c s' =>
      match skip with
      | S k => split_go sep k cur s'
      | O =>
          if prefix sep s
          then cur :: split_go sep (String.length sep - 1) "" s'
          else split_go sep 0 (cur ++ String c "") s'
      end
  end.

Definition split (sep s : string) : list string := split_go sep 0 "" s.

(** [s.split(sep, 1)] where [sep in s] holds: the text before the first
    separator and the text after it. *)
Fixpoint split_once_go (sep : string) (skip : nat) (s : string) : string * string :=
  match s with
  | EmptyString => ("", "")
  | String c s' =>
      match skip with
      | S k => match k with
               | O => ("", s')
               | S _ => split_once_go sep k s'
               end
      | O =>
          if prefix sep s
          then match String.length sep with
               | S (S k) => let '(_, v) := split_once_go sep (S k) s' in ("", v)
               | _ => ("", s')
               end
          else let '(k, v) := split_once_go sep 0 s' in (String c k, v)
      end
  end.

Definition split_once (sep s : string) : string * string :=
  split_once_go sep 0 s.

Fixpoint lstrip_by (p : ascii -> bool) (s : string) : string :=
  match s with
  | EmptyString => ""
  | String c s' => if p c then lstrip_by p s' else s
  end.

Fixpoint rstrip_by (p : ascii -> bool) (s : string) : string :=
  match s with
  | EmptyString => ""
  | String c s' =>
      match rstrip_by p s' with
      | EmptyString => if p c then "" else String c ""
      | r => String c r
      end
  end.

Definition strip_by (p : ascii -> bool) (s : string) : string :=
  rstrip_by p (lstrip_by p s).

(** [s.strip()] *)
Definition strip (s : string) : string := strip_by Char.is_space s.

(** [s.strip(chars)] *)
Definition strip_chars (chars s : string) : string :=
  strip_by (fun c => mem c chars) s.

(** [s.lower()] *)
Fixpoint lower (s : string) : string :=
  match s with
  | EmptyString => ""
  | String c s' => String (Char.lower c) (lower s')
  end.

(** The longest prefix of characters satisfying [p], and what follows it:
    a greedy [[class]*]. *)
Fixpoint span (p : ascii -> bool) (s : string) : string * string :=
  match s with
  | EmptyString => ("", "")
  | String c s' =>
      if p c then let '(a, b) := span p s' in (String c a, b) else ("", s)
  end.

(** Every character of [s] satisfies [p]. *)
Fixpoint all (p : ascii -> bool) (s : string) : bool :=
  match s with
  | EmptyString => true
  | String c s' => p c && all p s'
  end.

(** [repr(s)]: the quote is double only when [s] has a single quote and no
    double one; the quote, the backslash and unprintable characters are
    escaped. *)
Definition repr_char (quote c : ascii) : string :=
  if Ascii.eqb c quote || Ascii.eqb c "\"
  then String "\" (String c "")
  else if Ascii.eqb c "009" then "\t"
  else if Ascii.eqb c "010" then "\n"
  else if Ascii.eqb c "013" then "\r"
  else if Char.is_printable c then String c ""
  else String "\" (String "x"
         (String (Char.hex_digit (Char.ord c / 16))
            (String (Char.hex_digit (Char.ord c mod 16)) ""))).

Fixpoint repr_body (quote : ascii) (s : string) : string :=
  match s with
  | EmptyString => ""
  | String c s' => repr_char quote c ++ repr_body quote s'
  end.

Definition repr (s : string) : string :=
  let quote := if mem "'" s && negb (mem Char.dquote s) then Char.dquote else "'"%char in
  String quote (repr_body quote s ++ String quote "").

End Str.


(* ================================================================== *)
(** ** The parsed document (the tree BeautifulSoup builds) *)

(** An attribute value is a string, or a list of strings for the
    multi-valued attributes ([class], [rel], [accept-charset], ...); the
    parser of a path recovers the same two shapes. *)
Inductive AttrValue : Type :=
| Scalar (s : string)
| Multi (l : list string).

(** A dict with string keys, in insertion order. *)
Definition dict (V : Type) : Type := list (string * V).

Module Dict.

Fixpoint get {V : Type} (d : dict V) (key : string) : option V :=
  match d with
  | [] => None
  | (k, v) :: rest => if String.eqb k key then Some v else get rest key
  end.

(** [d[key] = value]: an existing key keeps its place, a new one goes last. *)
Fixpoint set {V : Type} (d : dict V) (key : string) (value : V) : dict V :=
  match d with
  | [] => [(key, value)]
  | (k, v) :: rest =>
      if String.eqb k key then (k, value) :: rest
      else (k, v) :: set rest key value
  end.

End Dict.

(** A node of the tree, seen from above: a tag with its contents, or text. *)
Inductive PageElement : Type :=
| Tag (name : string) (attrs : dict AttrValue) (contents : list PageElement)
| NavigableString (text : string).

(** A tag seen from below, as the path builder walks it: its name, its
    attributes and its parent ([None] above the document object). *)
Inductive Element : Type :=
| mkElement (name : string) (attrs : dict AttrValue) (parent : option Element).

Definition name (e : Element) : string :=
  match e with mkElement n _ _ => n end.
Definition attrs (e : Element) : dict AttrValue :=
  match e with mkElement _ a _ => a end.
Definition parent (e : Element) : option Element :=
  match e with mkElement _ _ p => p end.

(** The object [BeautifulSoup(html, 'html.parser')] returns: a tag named
    [[document]] without attributes, holding the top-level nodes. *)
Definition ROOT_TAG_NAME : string := "[document]".

Definition BeautifulSoup (contents : list PageElement) : PageElement :=
  Tag ROOT_TAG_NAME [] contents.

Definition handle (node : PageElement) (up : option Element) : Element :=
  match node with
  | Tag n a _ => mkElement n a up
  | NavigableString _ => mkElement "" [] up
  end.

(** The tags below [node] in document order, each with its chain of
    parents; [self] is the handle of [node]. *)
Fixpoint descendants (self : Element) (node : PageElement) : list Element :=
  match node with
  | Tag _ _ contents =>
      flat_map
        (fun child =>
           match child with
           | Tag _ _ _ =>
               let el := handle child (Some self) in
               el :: descendants el child
           | NavigableString _ => []
           end)
        contents
  | NavigableString _ => []
  end.

(** [soup.find_all()] *)
Definition find_all (soup : PageElement) : list Element :=
  descendants (handle soup None) soup.

(* ================================================================== *)
(** ** Element descriptor and path builder *)

(** [str(v)] of an attribute value: a list prints as Python prints lists. *)
Definition str_value (v : AttrValue) : string :=
  match v with
  | Scalar s => s
  | Multi l => "[" ++ Str.join ", " (map Str.repr l) ++ "]"
  end.

Definition element_to_string (element : Element) : string :=
  name element ++ " "
  ++ Str.join " " (map (fun '(k, v) => k ++ "=" ++ str_value v) (attrs element)).

(** The loop of [generate_element_path]: it runs while the element is not
    [None] and has a non-empty name. *)
Fixpoint path_parts (element : Element) : list string :=
  match element with
  | mkElement n _ up =>
      match n with
      | EmptyString => []
      | String _ _ =>
          element_to_string element
          :: match up with
             | Some p => path_parts p
             | None => []
             end
      end
  end.

Definition generate_element_path (element : Element) : string :=
  Str.join " -> " (rev (path_parts element)).

(** The elements above an element, nearest first; the last one is the
    document object. *)
Fixpoint ancestors (e : Element) : list Element :=
  match e with
  | mkElement _ _ (Some p) => p :: ancestors p
  | mkElement _ _ None => []
  end.

(** The number of ancestors of an element, the document object left out. *)
Definition ancestor_depth (e : Element) : nat := List.length (ancestors e) - 1.

(* ================================================================== *)
(** ** Exceptions *)

(** What a call can raise. [ValueError] and [IndexError] are what the
    libraries and the list indexing raise; [EmptyDocument] is the condition
    the design names for a document without elements. *)
Inductive exception : Type :=
| EmptyDocument
| ValueError
| IndexError.

Inductive result (A : Type) : Type :=
| OK (a : A)
| Raise (e : exception).
Arguments OK {A} a.
Arguments Raise {A} e.

Definition bind {A B : Type} (r : result A) (k : A -> result B) : result B :=
  match r with
  | OK a => k a
  | Raise e => Raise e
  end.

Notation "x <- r ;; k" := (bind r (fun x => k))
  (at level 61, r at next level, right associativity).

(* ================================================================== *)
(** ** Bag-of-words vectors and cosine similarity *)

(** A fitted [CountVectorizer()] with the default analyzer: the text is
    lower-cased and its tokens are the maximal runs of two or more word
    characters (the pattern [\b\w\w+\b]). *)
Record CountVectorizer : Type := { vocabulary_ : list string }.

Fixpoint word_runs (cur s : string) : list string :=
  match s with
  | EmptyString => match cur with EmptyString => [] | _ => [cur] end
  | String c s' =>
      if Char.is_word c then word_runs (cur ++ String c "") s'
      else match cur with
           | EmptyString => word_runs "" s'
           | _ => cur :: word_runs "" s'
           end
  end.

Definition analyze (doc : string) : list string :=
  filter (fun t => (2 <=? String.length t)%nat) (word_runs "" (Str.lower doc)).

Definition count (term : string) (tokens : list string) : Z :=
  Z.of_nat (List.length (filter (String.eqb term) tokens)).

(** One row of [vectorizer.transform]: the count of each vocabulary term;
    tokens outside the vocabulary are dropped. *)
Definition vector (v : CountVectorizer) (doc : string) : list Z :=
  map (fun term => count term (analyze doc)) (vocabulary_ v).

(** [vectorizer.transform(docs)]; an empty vocabulary is refused. *)
Definition transform (v : CountVectorizer) (docs : list string)
  : result (list (list Z)) :=
  match vocabulary_ v with
  | [] => Raise ValueError
  | _ => OK (map (vector v) docs)
  end.

(** Binary64 numbers: a count becomes a float as [astype(float64)] makes
    it, and a finite float is read as the rational it denotes. *)
Module Float64.

Definition of_count (c : Z) : float := PrimFloat.of_uint63 (Uint63.of_Z c).

Definition value (f : float) : Q :=
  match Prim2SF f with
  | S754_finite s m e =>
      let q := if (0 <=? e)%Z then inject_Z (Zpos m * 2 ^ e)
               else Qmake (Zpos m) (Z.to_pos (2 ^ (- e))) in
      Qred (if s then Qopp q else q)
  | _ => 0%Q
  end.

End Float64.

(** The l2 norm of a sparse row as [normalize] computes it: the squares of
    the stored counts (the non-zero ones) are summed from left to right,
    and a row without stored count has no norm. *)
Definition row_norm (row : list Z) : option float :=
  let sum :=
    fold_left
      (fun s c =>
         if (c =? 0)%Z then s
         else (s + Float64.of_count c * Float64.of_count c)%float)
      row 0%float in
  if PrimFloat.eqb sum 0 then None else Some (PrimFloat.sqrt sum).

(** [normalize(X)] on one row: each stored count divided by the norm;
    [None] stands for a coordinate that the sparse row does not store. *)
Definition normalize (row : list Z) : list (option float) :=
  match row_norm row with
  | Some n =>
      map (fun c =>
             if (c =? 0)%Z then None else Some (Float64.of_count c / n)%float)
        row
  | None =>
      map (fun c => if (c =? 0)%Z then None else Some (Float64.of_count c)) row
  end.

(** The product of two sparse rows: only the coordinates stored in both
    contribute, added from left to right to a sum that starts at 0. *)
Definition sparse_dot (x y : list (option float)) : float :=
  fold_left
    (fun acc '(a, b) =>
       match a, b with
       | Some a, Some b => (acc + a * b)%float
       | _, _ => acc
       end)
    (combine x y) 0%float.

Definition cosine (x y : list Z) : float :=
  sparse_dot (normalize x) (normalize y).

(** The score of a candidate row against the target row, as a rational. *)
Definition score (x y : list Z) : Q := Float64.value (cosine x y).

(** [cosine_similarity(X, Y)[0]] for a one-row [X]: [Y] needs a row. *)
Definition cosine_similarity (x : list Z) (ys : list (list Z)) : result (list Q) :=
  match ys with
  | [] => Raise ValueError
  | _ => OK (map (score x) ys)
  end.

(** [argmax]: the first index of the greatest entry. *)
Fixpoint argmax_from (best_i : nat) (best : Q) (i : nat) (l : list Q) : nat :=
  match l with
  | [] => best_i
  | x :: l' =>
      if Qle_bool x best then argmax_from best_i best (S i) l'
      else argmax_from i x (S i) l'
  end.

Definition argmax (l : list Q) : result nat :=
  match l with
  | [] => Raise ValueError
  | x :: l' => OK (argmax_from 0 x 1 l')
  end.

(** [xs[i]] *)
Definition index {A : Type} (xs : list A) (i : nat) : result A :=
  match nth_error xs i with
  | Some x => OK x
  | None => Raise IndexError
  end.

(* ================================================================== *)
(** ** Similarity matcher *)

Definition all_elements_paths (soup : PageElement) : list string :=
  map generate_element_path (find_all soup).

Definition find_most_similar_element_path
    (soup : PageElement) (path : string) (vectorizer : CountVectorizer)
  : result string :=
  let paths := all_elements_paths soup in
  path_vector <- transform vectorizer [path] ;;
  paths_vectors <- transform vectorizer paths ;;
  similarities <- cosine_similarity (hd [] path_vector) paths_vectors ;;
  most_similar_index <- argmax similarities ;;
  index paths most_similar_index.

(** The loop of [get_most_similar_paths]; an empty string is falsy. *)
Fixpoint most_similar_loop (soup : PageElement) (vectorizer : CountVectorizer)
    (paths : list string) (most_similar_paths : list string)
  : result (list string) :=
  match paths with
  | [] => OK most_similar_paths
  | path :: rest =>
      most_similar_path <- find_most_similar_element_path soup path vectorizer ;;
      most_similar_loop soup vectorizer rest
        (match most_similar_path with
         | EmptyString => most_similar_paths
         | _ => (most_similar_paths ++ [most_similar_path])%list
         end)
  end.

Definition get_most_similar_paths
    (soup : PageElement) (paths : list string) (vectorizer : CountVectorizer)
  : result (list string) :=
  most_similar_loop soup vectorizer paths [].

(** The loop of [parse_rules_to_paths]: [paths.extend(value)] for each item
    of the rule mapping, in its order. *)
Definition parse_rules_to_paths (rules_json : dict (list string)) : list string :=
  fold_left (fun paths '(_, value) => (paths ++ value)%list) rules_json [].

(** [sorted(terms)]: insertion into a sorted list, strings compared
    character by character. *)
Fixpoint insert_sorted (t : string) (l : list string) : list string :=
  match l with
  | [] => [t]
  | u :: rest => if String.leb t u then t :: l else u :: insert_sorted t rest
  end.

Definition sorted (l : list string) : list string :=
  fold_right insert_sorted [] l.

(** [CountVectorizer().fit(docs)]: the vocabulary is the set of tokens,
    numbered in sorted order, and fitting fails when there is none. *)
Definition fit (docs : list string) : result CountVectorizer :=
  match sorted (nodup string_dec (flat_map analyze docs)) with
  | [] => Raise ValueError
  | vocabulary => OK {| vocabulary_ := vocabulary |}
  end.

(** [get_most_similar_element], from the parsed rules and document. *)
Definition get_most_similar_element
    (soup : PageElement) (rule_json : dict (list string))
  : result (list string) :=
  let paths := parse_rules_to_paths rule_json in
  let all_elements_str := map element_to_string (find_all soup) in
  vectorizer <- fit all_elements_str ;;
  get_most_similar_paths soup paths vectorizer.

(* ================================================================== *)
(** ** The three regular expressions and the two [re] functions used *)

Module Re.

(** [re.findall]: the pattern is tried at each position that is not inside
    the previous match. [match_at] gives what the pattern captures at the
    head of a string and the length of the match, which is never 0 for the
    patterns below. *)
Fixpoint findall_go {A : Type} (match_at : string -> option (A * nat))
    (skip : nat) (s : string) : list A :=
  match s with
  | EmptyString => []
  | String _ s' =>
      match skip with
      | S k => findall_go match_at k s'
      | O =>
          match match_at s with
          | Some (groups, len) => groups :: findall_go match_at (len - 1) s'
          | None => findall_go match_at 0 s'
          end
      end
  end.

Definition findall {A : Type} (match_at : string -> option (A * nat))
    (s : string) : list A :=
  findall_go match_at 0 s.

(** [re.split(r'\s+', s)] *)
Fixpoint split_ws_go (in_ws : bool) (cur s : string) : list string :=
  match s with
  | EmptyString => [cur]
  | String c s' =>
      if Char.is_space c
      then if in_ws then split_ws_go true cur s'
           else cur :: split_ws_go true "" s'
      else split_ws_go false (cur ++ String c "") s'
  end.

Definition split_ws (s : string) : list string := split_ws_go false "" s.

(** The greedy [\w+(?:-\w+)*] from a word character on: word characters,
    and a hyphen whenever a word character follows it. No shorter choice
    can be followed by [=], so the greedy one is the only one to try. *)
Fixpoint hyphenated (s : string) : string * string :=
  match s with
  | EmptyString => ("", "")
  | String c s' =>
      if Char.is_word c
      then let '(a, b) := hyphenated s' in (String c a, b)
      else if Ascii.eqb c "-"
      then match s' with
           | String d _ =>
               if Char.is_word d
               then let '(a, b) := hyphenated s' in (String c a, b)
               else ("", s)
           | EmptyString => ("", s)
           end
      else ("", s)
  end.

Definition value_char (c : ascii) : bool :=
  negb (Char.is_space c) && negb (Ascii.eqb c "[").

Definition not_closing (c : ascii) : bool := negb (Ascii.eqb c "]").

(** The optional [(?:\[[^\]]*\])?] at the head of [s]: the text it takes. *)
Definition bracket_group (s : string) : string :=
  match s with
  | String "[" r =>
      let '(body, r') := Str.span not_closing r in
      match r' with
      | String "]" _ => "[" ++ body ++ "]"
      | _ => ""
      end
  | _ => ""
  end.

(** [(\w+(?:-\w+)*=[^\s\[]*(?:\[[^\]]*\])?)] at the head of [s]. *)
Definition attribute_pattern (s : string) : option (string * nat) :=
  match s with
  | EmptyString => None
  | String c _ =>
      if Char.is_word c
      then let '(key, r) := hyphenated s in
           match r with
           | String "=" r1 =>
               let '(value, r2) := Str.span value_char r1 in
               let m := key ++ "=" ++ value ++ bracket_group r2 in
               Some (m, String.length m)
           | _ => None
           end
      else None
  end.

Definition list_char (c : ascii) : bool :=
  negb (Ascii.eqb c "]") && negb (Ascii.eqb c "010").

Definition not_space (c : ascii) : bool := negb (Char.is_space c).

(** [(\w+)=\[(.*?)\]|(\w+)=(\S+)] at the head of [s]: the four groups, an
    unmatched group being the empty string as [findall] reports it. The
    lazy [.*?] stops at the first [ ] ] and cannot cross a newline. *)
Definition pair_pattern (s : string)
  : option ((string * string * string * string) * nat) :=
  let '(key, r) := Str.span Char.is_word s in
  match key, r with
  | String _ _, String "=" r1 =>
      let first :=
        match r1 with
        | String "[" r2 =>
            let '(body, r3) := Str.span list_char r2 in
            match r3 with
            | String "]" _ =>
                Some ((key, body, "", ""),
                      String.length key + 2 + String.length body + 1)
            | _ => None
            end
        | _ => None
        end in
      match first with
      | Some m => Some m
      | None =>
          let '(value, _) := Str.span not_space r1 in
          match value with
          | EmptyString => None
          | _ => Some (("", "", key, value),
                       String.length key + 1 + String.length value)
          end
      end
  | _, _ => None
  end.

(** [re.match] of a word followed by the rest of the line, the pattern of
    [find_element_by_path]: the two groups. *)
Definition tag_pattern (s : string) : option (string * string) :=
  let '(tag, r) := Str.span Char.is_word s in
  match tag with
  | EmptyString => None
  | _ => Some (tag, fst (Str.span (fun c => negb (Ascii.eqb c "010")) r))
  end.

End Re.

(* ================================================================== *)
(** ** Attribute codec *)

Definition split_attributes_improved (attr_str : string) : list string :=
  Re.findall Re.attribute_pattern attr_str.

(** The characters [value.strip] is given: space, the two quotes; and for
    the items of a list the two brackets as well. *)
Definition quote_chars : string := String " " (String Char.dquote "'").
Definition item_chars : string := String " " (String Char.dquote "[]'").

(** The body of the loop over [attr_pairs]. *)
Definition store_pair (attrs : dict AttrValue)
    (attr : string * string * string * string) : dict AttrValue :=
  let '(g0, g1, g2, g3) := attr in
  match g0 with
  | String _ _ =>
      Dict.set attrs g0 (Multi (map (Str.strip_chars item_chars) (Str.split "," g1)))
  | EmptyString =>
      Dict.set attrs g2 (Scalar (Str.strip_chars quote_chars g3))
  end.

(** The body of the loop over [attrs_list]. *)
Definition store_plain (attrs : dict AttrValue) (attr : string) : dict AttrValue :=
  if Str.contains "=" attr
  then let '(key, value) := Str.split_once "=" attr in
       Dict.set attrs key (Scalar (Str.strip_chars quote_chars value))
  else attrs.

(** The body of the loop over [attributes]; the bracket branch scans the
    whole of [attr_str] again. *)
Definition store_attribute (attr_str : string) (attrs : dict AttrValue)
    (attribute : string) : dict AttrValue :=
  if Str.contains "[" attribute
  then fold_left store_pair (Re.findall Re.pair_pattern attr_str) attrs
  else fold_left store_plain (Re.split_ws (Str.strip attribute)) attrs.

Definition parse_attributes (attr_str : string) : dict AttrValue :=
  fold_left (store_attribute attr_str) (split_attributes_improved attr_str) [].

(* ================================================================== *)
(** ** Reverse locator *)

(** How the tree query compares an attribute of a tag ([None] when the tag
    lacks it) with the value asked for, as BeautifulSoup 4.13 and later
    do: an attribute that the tag lacks matches nothing, and the items of a
    list are also tried joined by spaces when there are several. (Earlier
    versions let a missing attribute match an empty value.) *)
Definition matches_string (markup : string) (match_against : AttrValue) : bool :=
  match match_against with
  | Scalar s => String.eqb markup s
  | Multi l => existsb (String.eqb markup) l
  end.

Definition matches (markup : option AttrValue) (match_against : AttrValue) : bool :=
  match markup with
  | None => false
  | Some (Scalar s) => matches_string s match_against
  | Some (Multi l) =>
      existsb (fun item => matches_string item match_against) l
      || ((1 <? List.length l)%nat
          && matches_string (Str.join " " l) match_against)
  end.

Definition search_tag (tag : string) (wanted : dict AttrValue)
    (node : PageElement) : bool :=
  match node with
  | Tag n a _ =>
      String.eqb tag n && forallb (fun '(k, v) => matches (Dict.get a k) v) wanted
  | NavigableString _ => false
  end.

(** [node.find(tag, attrs)]: the first tag below [node], in document order,
    with that name and those attributes. *)
Fixpoint find (tag : string) (wanted : dict AttrValue) (node : PageElement)
  : option PageElement :=
  match node with
  | Tag _ _ contents =>
      (fix first (l : list PageElement) : option PageElement :=
         match l with
         | [] => None
         | child :: rest =>
             if search_tag tag wanted child then Some child
             else match find tag wanted child with
                  | Some found => Some found
                  | None => first rest
                  end
         end) contents
  | NavigableString _ => None
  end.

(** The tag name and the attributes a segment of the path asks for. *)
Definition segment_query (part : string) : string * dict AttrValue :=
  let '(tag, attr_str) :=
    match Re.tag_pattern part with
    | Some (g1, g2) => (g1, Str.strip g2)
    | None => ("", "")
    end in
  (tag, parse_attributes attr_str).

(** The body of the loop over the segments of the path. *)
Definition locate_step (current_element : PageElement) (part : string)
  : PageElement :=
  if Str.contains "[document]" part then current_element
  else
    let '(tag, attrs) := segment_query part in
    match find tag attrs current_element with
    | Some found_element => found_element
    | None => current_element
    end.

(** The loop, from [current_element] on. *)
Definition locate (current_element : PageElement) (parts : list string)
  : PageElement :=
  fold_left locate_step parts current_element.

Definition find_element_by_path (soup : PageElement) (path : string)
  : PageElement :=
  locate soup (Str.split " -> " path).

(** No tag below [current_element] answers the segment. *)
Definition unresolved (current_element : PageElement) (part : string) : Prop :=
  let '(tag, attrs) := segment_query part in
  find tag attrs current_element = None.

(* ================================================================== *)
(** ** Well-formed trees, and the documents of the examples *)

(** The parser gives every tag a name. *)
Fixpoint named_tree (node : PageElement) : bool :=
  match node with
  | Tag n _ contents =>
      negb (String.eqb n "") && forallb named_tree contents
  | NavigableString _ => true
  end.

(** Every element on the way up from [e], itself included, has a name. *)
Fixpoint named (e : Element) : bool :=
  match e with
  | mkElement n _ up =>
      negb (String.eqb n "")
      && match up with
         | Some p => named p
         | None => true
         end
  end.

(** [<html></html>] *)
Definition html_only : PageElement := BeautifulSoup [Tag "html" [] []].

(** [<div><p></p></div>] *)
Definition p_tag : PageElement := Tag "p" [] [].
Definition div_tag : PageElement := Tag "div" [] [p_tag].
Definition div_p : PageElement := BeautifulSoup [div_tag].

(** [<div><div></div></div>] *)
Definition div_div : PageElement :=
  BeautifulSoup [Tag "div" [] [Tag "div" [] []]].

(** [<html><body><h1 id=main>Hi</h1><p></p></body></html>] *)
Definition page : PageElement :=
  BeautifulSoup
    [Tag "html" []
       [Tag "body" []
          [Tag "h1" [("id", Scalar "main")] [NavigableString "Hi"];
           Tag "p" [] []]]].

(** A document without elements. *)
Definition empty_document : PageElement := BeautifulSoup [].

(** The vectorizer fitted on the descriptors of [<div><div></div></div>]. *)
Definition div_vocabulary : CountVectorizer := {| vocabulary_ := ["div"] |}.

(** The handles of the document object and of the tag of [<html></html>]. *)
Definition document_object : Element := mkElement ROOT_TAG_NAME [] None.
Definition html_element : Element := mkElement "html" [] (Some document_object).

(** The handles of [body] and [h1] in [<html><body><h1 id=main>]. *)
Definition body_element : Element := mkElement "body" [] (Some html_element).
Definition h1_element : Element :=
  mkElement "h1" [("id", Scalar "main")] (Some body_element).

(* ================================================================== *)
(** ** Notions used in the statements *)

(** An element and the elements above it, nearest first. *)
Definition chain (e : Element) : list Element := e :: ancestors e.

Definition has_name (e : Element) : bool := negb (String.eqb (name e) "").

(** The similarity of a candidate to the target under a vectorizer, as the
    matcher computes and compares it. *)
Definition similarity (v : CountVectorizer) (target candidate : string) : Q :=
  score (vector v target) (vector v candidate).

(** A string that is truthy. *)
Definition non_empty (s : string) : bool := negb (String.eqb s "").

(** A character of a key of the tokenizer. *)
Definition key_char (c : ascii) : bool := Char.is_word c || Ascii.eqb c "-".

(** The entry of [key] holds the value of one of the tokens [key=value]. *)
Definition holds_key (attr_str key : string) (attrs : dict AttrValue) : Prop :=
  exists value,
    In (key ++ "=" ++ value) (split_attributes_improved attr_str)
    /\ Dict.get attrs key = Some (Scalar (Str.strip_chars quote_chars value)).

(* ================================================================== *)
(** ** Text cleaning *)

(** [re.sub(r'\s+', repl, s)]: each maximal run of white space becomes
    [repl]; [in_ws] tells that the run has begun. *)
Fixpoint sub_ws_go (repl : string) (in_ws : bool) (s : string) : string :=
  match s with
  | EmptyString => ""
  | String c s' =>
      if Char.is_space c
      then if in_ws then sub_ws_go repl true s'
           else repl ++ sub_ws_go repl true s'
      else String c (sub_ws_go repl false s')
  end.

Definition clean_text (text : string) : string := sub_ws_go "" false text.

(** The characters of [s] that satisfy [p], in their order. *)
Fixpoint keep (p : ascii -> bool) (s : string) : string :=
  match s with
  | EmptyString => ""
  | String c s' => if p c then String c (keep p s') else keep p s'
  end.

(* ================================================================== *)
(** ** Notions used in the further properties *)

(** A key as the parser can store it: a word character, then word
    characters and hyphens. *)
Definition well_formed_key (k : string) : bool :=
  match k with
  | EmptyString => false
  | String c k' => Char.is_word c && Str.all key_char k'
  end.

(** A value that stripping would not change. *)
Definition trimmed_value (v : AttrValue) : bool :=
  match v with
  | Scalar s => String.eqb (Str.strip_chars quote_chars s) s
  | Multi l => forallb (fun i => String.eqb (Str.strip_chars item_chars i) i) l
  end.

(** The tags below a node, in document order. *)
Fixpoint tags_below (node : PageElement) : list PageElement :=
  match node with
  | Tag _ _ contents =>
      flat_map
        (fun child =>
           match child with
           | Tag _ _ _ => child :: tags_below child
           | NavigableString _ => []
           end)
        contents
  | NavigableString _ => []
  end.

Definition tag_name (node : PageElement) : string :=
  match node with
  | Tag n _ _ => n
  | NavigableString _ => ""
  end.

Definition tag_attrs (node : PageElement) : dict AttrValue :=
  match node with
  | Tag _ a _ => a
  | NavigableString _ => []
  end.

(** The invariant of the parser's loops: keys are well formed and values
    are stripped. *)
Definition stored_well (d : dict AttrValue) : Prop :=
  forall k v, In (k, v) d ->
    well_formed_key k = true /\ trimmed_value v = true.

(** Every hyphen of a key is followed by a word character. *)
Fixpoint hyphens_followed (k : string) : bool :=
  match k with
  | EmptyString => true
  | String c k' =>
      (if Ascii.eqb c "-"
       then match k' with
            | String d _ => Char.is_word d
            | EmptyString => false
            end
       else true)
      && hyphens_followed k'
  end.

(** An attribute that a descriptor shows and the parser reads back as it
    is: a scalar under a key like [data-v-1], whose value has no white
    space and no opening bracket and neither starts nor ends with a
    quote. *)
Definition simple_attribute (a : string * AttrValue) : bool :=
  match a with
  | (k, Scalar s) =>
      well_formed_key k && hyphens_followed k
      && Str.all Re.value_char s
      && String.eqb (Str.strip_chars quote_chars s) s
  | (_, Multi _) => false
  end.

(** How [element_to_string] writes one attribute. *)
Definition attribute_text (a : string * AttrValue) : string :=
  let '(k, v) := a in k ++ "=" ++ str_value v.

(** The characters that [repr], the list syntax or the stripping treat
    specially: space, the quotes, comma, brackets and backslash. *)
Definition special_chars : string :=
  String " " (String Char.dquote ",[]'\").

(** An item of a multi-valued attribute without such characters: printable
    characters only, none of them special. *)
Definition plain_char (c : ascii) : bool :=
  Char.is_printable c && negb (Str.mem c special_chars).

Definition plain_item (i : string) : bool := Str.all plain_char i.

(** [<aa bb=""><aa bb=""><aa bb=""></aa></aa></aa>] and the vectorizer
    fitted on its descriptors; the paths of its three elements have the
    count vectors (1,1), (2,2) and (3,3). *)
Definition nested : PageElement :=
  BeautifulSoup
    [Tag "aa" [("bb", Scalar "")]
       [Tag "aa" [("bb", Scalar "")]
          [Tag "aa" [("bb", Scalar "")] []]]].

Definition aa_bb_vocabulary : CountVectorizer :=
  {| vocabulary_ := ["aa"; "bb"] |}.

Definition nested_paths : list string :=
  ["[document]  -> aa bb=";
   "[document]  -> aa bb= -> aa bb=";
   "[document]  -> aa bb= -> aa bb= -> aa bb="].

(** [<p></p><p id="">txt</p>] *)
Definition two_paragraphs : PageElement :=
  BeautifulSoup
    [Tag "p" [] []; Tag "p" [("id", Scalar "")] [NavigableString "txt"]].

(** What a tag with attribute value [value] offers to a query for the
    string [s]: the string itself, one of the items of a list, or the
    items of a list of several joined by spaces. *)
Definition offers (value : AttrValue) (s : string) : Prop :=
  match value with
  | Scalar s' => s' = s
  | Multi l => In s l \/ ((1 < List.length l)%nat /\ Str.join " " l = s)
  end.

(* ================================================================== *)
(** * Properties *)

(** ** Strings *)

Lemma append_nil_r (s : string) : s ++ "" = s.
Proof. induction s as [|c s IH]; simpl; [reflexivity | now rewrite IH]. Qed.

Lemma append_assoc (a b c : string) : (a ++ b) ++ c = a ++ (b ++ c).
Proof. induction a as [|x a IH]; simpl; [reflexivity | now rewrite IH]. Qed.

Lemma join_snoc (sep : string) (l : list string) (x : string) :
  l <> [] -> Str.join sep (l ++ [x])%list = Str.join sep l ++ sep ++ x.
Proof.
  induction l as [|a l IH]; intros Hne; [congruence|].
  destruct l as [|b l].
  - reflexivity.
  - change (Str.join sep ((a :: b :: l) ++ [x])%list)
      with (a ++ sep ++ Str.join sep ((b :: l) ++ [x])%list).
    rewrite IH by discriminate.
    change (Str.join sep (a :: b :: l)) with (a ++ sep ++ Str.join sep (b :: l)).
    now rewrite !append_assoc.
Qed.

Lemma join_app (sep : string) (l1 l2 : list string) :
  l1 <> [] -> l2 <> [] ->
  Str.join sep (l1 ++ l2)%list = Str.join sep l1 ++ sep ++ Str.join sep l2.
Proof.
  induction l1 as [|a l1 IH]; intros H1 H2; [congruence|].
  destruct l1 as [|b l1].
  - destruct l2 as [|c l2]; [congruence | reflexivity].
  - change (Str.join sep ((a :: b :: l1) ++ l2)%list)
      with (a ++ sep ++ Str.join sep ((b :: l1) ++ l2)%list).
    rewrite IH by (discriminate || assumption).
    change (Str.join sep (a :: b :: l1)) with (a ++ sep ++ Str.join sep (b :: l1)).
    now rewrite !append_assoc.
Qed.

(** ** Path extractor *)

Lemma extend_all (rules : dict (list string)) (paths : list string) :
  fold_left (fun acc '(_, value) => (acc ++ value)%list) rules paths
  = (paths ++ List.concat (map snd rules))%list.
Proof.
  revert paths.
  induction rules as [|[label value] rules IH]; intros paths; simpl.
  - now rewrite app_nil_r.
  - rewrite IH. now rewrite app_assoc.
Qed.

(** C8. The path extractor returns the lists of the rule mapping
    concatenated: the lists in the order of the labels, each list in its
    own order, the labels dropped. The rule [{a: [P1, P2], b: [P3]}] gives
    [[P1, P2, P3]]. *)
Theorem parse_rules_to_paths_concat :
  (forall rules : dict (list string),
      parse_rules_to_paths rules = List.concat (map snd rules))
  /\ parse_rules_to_paths [("a", ["P1"; "P2"]); ("b", ["P3"])] = ["P1"; "P2"; "P3"].
Proof.
  split.
  - intros rules. unfold parse_rules_to_paths. now rewrite extend_all.
  - reflexivity.
Qed.

(** ** Element descriptor and path builder *)

Lemma Element_up_ind (P : Element -> Prop) :
  (forall n a, P (mkElement n a None)) ->
  (forall n a p, P p -> P (mkElement n a (Some p))) ->
  forall e, P e.
Proof.
  intros Htop Hup. fix IH 1.
  intros [n a [p|]]; [apply Hup, IH | apply Htop].
Qed.

Lemma path_parts_named (e : Element) :
  named e = true -> path_parts e = map element_to_string (chain e).
Proof.
  induction e as [n a | n a p IH] using Element_up_ind; simpl; intros H;
    apply andb_prop in H as [Hn Hp]; destruct n as [|c n]; try discriminate.
  - reflexivity.
  - unfold chain in IH. now rewrite (IH Hp).
Qed.

Lemma join_ends_with (sep : string) (l : list string) (x : string) :
  exists before, Str.join sep (l ++ [x])%list = before ++ x.
Proof.
  destruct l as [|a l].
  - now exists "".
  - exists (Str.join sep (a :: l) ++ sep).
    rewrite join_snoc by discriminate. now rewrite append_assoc.
Qed.

Lemma descriptor_without_attributes (e : Element) :
  attrs e = [] -> element_to_string e = name e ++ " ".
Proof.
  intros H. unfold element_to_string. rewrite H. reflexivity.
Qed.

(** C9. The descriptor of an element without attributes is its tag name
    and one space: the space between name and attributes is written even
    when there is no attribute. Such an element [a] above an element [e]
    therefore shows in the path of [e] with two spaces before the
    separator. *)
Theorem element_to_string_without_attributes (a : Element) :
  attrs a = [] ->
  element_to_string a = name a ++ " "
  /\ forall e, named e = true -> In a (ancestors e) ->
       exists before after,
         generate_element_path e = before ++ name a ++ "  -> " ++ after.
Proof.
  intros Ha. split; [now apply descriptor_without_attributes|].
  intros e Hnamed Hin.
  apply in_split in Hin as (l1 & l2 & Hl).
  unfold generate_element_path.
  rewrite (path_parts_named _ Hnamed). unfold chain. rewrite Hl.
  change (e :: l1 ++ a :: l2)%list with ((e :: l1) ++ a :: l2)%list.
  rewrite map_app, rev_app_distr. simpl map at 1.
  change (rev (element_to_string a :: map element_to_string l2))
    with (rev (map element_to_string l2) ++ [element_to_string a])%list.
  rewrite join_app.
  - destruct (join_ends_with " -> " (rev (map element_to_string l2))
                (element_to_string a)) as [before Hb].
    rewrite Hb, (descriptor_without_attributes _ Ha).
    exists before, (Str.join " -> " (rev (map element_to_string (e :: l1)))).
    now rewrite !append_assoc.
  - now destruct (rev (map element_to_string l2)).
  - simpl. now destruct (rev (map element_to_string l1)).
Qed.

Lemma element_to_string_without_attributes_witness :
  element_to_string body_element = "body "
  /\ exists before after,
       generate_element_path h1_element = before ++ "body" ++ "  -> " ++ after.
Proof.
  destruct (element_to_string_without_attributes body_element eq_refl) as [Hd Hp].
  split; [exact Hd|].
  apply (Hp h1_element); [reflexivity | simpl; auto].
Defined.

Lemma PageElement_nested_ind (P : PageElement -> Prop) :
  (forall n a contents, Forall P contents -> P (Tag n a contents)) ->
  (forall text, P (NavigableString text)) ->
  forall node, P node.
Proof.
  intros Htag Htext. fix IH 1.
  intros [n a contents | text]; [apply Htag | apply Htext].
  induction contents as [|child rest IHrest]; constructor; [apply IH | assumption].
Qed.

Lemma named_chain (e : Element) : named e = forallb has_name (chain e).
Proof.
  induction e as [n a | n a p IH] using Element_up_ind; simpl.
  - reflexivity.
  - unfold chain in IH. now rewrite IH.
Qed.

(** Every tag found below [node] hangs under the handle of [node] by a
    chain of named tags. *)
Lemma descendants_chain (node : PageElement) :
  forall self el,
    named_tree node = true ->
    In el (descendants self node) ->
    exists mid,
      chain el = (el :: mid ++ chain self)%list
      /\ forallb has_name (el :: mid) = true.
Proof.
  induction node as [n a contents IH | text] using PageElement_nested_ind;
    intros self el Hnamed Hin; [|contradiction].
  simpl in Hnamed. apply andb_prop in Hnamed as [_ Hcs].
  simpl in Hin. apply in_flat_map in Hin as (child & Hchild & Hel).
  rewrite Forall_forall in IH. rewrite forallb_forall in Hcs.
  specialize (IH child Hchild). specialize (Hcs child Hchild).
  destruct child as [cn ca cc | t]; [|contradiction].
  destruct Hel as [<- | Hel].
  - exists []. split; [reflexivity|].
    simpl in Hcs |- *. apply andb_prop in Hcs as [Hcn _].
    unfold has_name. simpl. now rewrite Hcn.
  - destruct (IH _ _ Hcs Hel) as (mid & Hchain & Hmid).
    exists (mid ++ [handle (Tag cn ca cc) (Some self)])%list. split.
    + rewrite Hchain. simpl. now rewrite <- app_assoc.
    + simpl in Hmid |- *. apply andb_prop in Hmid as [Hh Hm].
      rewrite Hh, forallb_app, Hm. simpl.
      simpl in Hcs. apply andb_prop in Hcs as [Hcn _].
      unfold has_name. simpl. now rewrite Hcn.
Qed.

(** C2, as the code has it. The document object is a tag named
    [[document]]: the walk includes it and ends there because it has no
    parent. The path of an element at ancestor-depth [d] of a parsed
    document is the join of [d + 2] descriptors: that of the document
    object first, then those of its [d] ancestors from the outermost on,
    then its own. *)
Theorem generate_element_path_includes_document
    (contents : list PageElement) (el : Element) :
  forallb named_tree contents = true ->
  In el (find_all (BeautifulSoup contents)) ->
  exists above,
    ancestors el = (rev above ++ [document_object])%list
    /\ List.length above = ancestor_depth el
    /\ generate_element_path el
       = Str.join " -> "
           ("[document] " :: map element_to_string (above ++ [el])%list).
Proof.
  intros Hnamed Hin.
  destruct (descendants_chain (BeautifulSoup contents)
              (handle (BeautifulSoup contents) None) el Hnamed Hin)
    as (mid & Hchain & Hmid).
  simpl handle in Hchain.
  exists (rev mid). split; [|split].
  - rewrite rev_involutive. unfold chain in Hchain at 1.
    now injection Hchain.
  - unfold ancestor_depth. unfold chain in Hchain at 1.
    injection Hchain as ->. rewrite length_app, length_rev. simpl. lia.
  - unfold generate_element_path. rewrite path_parts_named.
    + rewrite Hchain.
      change (el :: mid ++ chain (mkElement ROOT_TAG_NAME [] None))%list
        with ((el :: mid) ++ [mkElement ROOT_TAG_NAME [] None])%list.
      rewrite map_app, rev_app_distr. simpl rev at 1.
      rewrite <- map_rev. reflexivity.
    + rewrite named_chain, Hchain.
      change (el :: mid ++ chain (mkElement ROOT_TAG_NAME [] None))%list
        with ((el :: mid) ++ [mkElement ROOT_TAG_NAME [] None])%list.
      rewrite forallb_app, Hmid. reflexivity.
Qed.

(** ** Argmax and cosine *)

Lemma argmax_from_spec (l : list Q) :
  forall best_i best i,
    (argmax_from best_i best i l = best_i
     /\ forall j y, nth_error l j = Some y -> (y <= best)%Q)
    \/ (exists k x,
          argmax_from best_i best i l = i + k
          /\ nth_error l k = Some x
          /\ (best < x)%Q
          /\ (forall j y, nth_error l j = Some y -> (y <= x)%Q)
          /\ (forall j y, j < k -> nth_error l j = Some y -> (y < x)%Q)).
Proof.
  induction l as [|x l IH]; intros best_i best i; simpl.
  - left. split; [reflexivity|]. intros [|j] y; discriminate.
  - destruct (Qle_bool x best) eqn:Hle.
    + apply Qle_bool_iff in Hle.
      destruct (IH best_i best (S i)) as [[Hr Hall] | (k & m & Hr & Hk & Hlt & Hall & Hbefore)].
      * left. split; [exact Hr|].
        intros [|j] y Hy; simpl in Hy; [injection Hy as <-; exact Hle | eauto].
      * right. exists (S k), m. repeat split.
        -- rewrite Hr. lia.
        -- exact Hk.
        -- exact Hlt.
        -- intros [|j] y Hy; simpl in Hy.
           ++ injection Hy as <-. apply Qlt_le_weak.
              eapply Qle_lt_trans; eassumption.
           ++ eauto.
        -- intros [|j] y Hj Hy; simpl in Hy.
           ++ injection Hy as <-. eapply Qle_lt_trans; eassumption.
           ++ apply (Hbefore j); [lia | exact Hy].
    + assert (Hlt : (best < x)%Q).
      { apply Qnot_le_lt. intros H. apply Qle_bool_iff in H. congruence. }
      right.
      destruct (IH i x (S i)) as [[Hr Hall] | (k & m & Hr & Hk & Hxm & Hall & Hbefore)].
      * exists 0, x. repeat split.
        -- rewrite Hr. lia.
        -- exact Hlt.
        -- intros [|j] y Hy; simpl in Hy;
             [injection Hy as <-; apply Qle_refl | eauto].
        -- intros j y Hj. lia.
      * exists (S k), m. repeat split.
        -- rewrite Hr. lia.
        -- exact Hk.
        -- eapply Qlt_trans; eassumption.
        -- intros [|j] y Hy; simpl in Hy;
             [injection Hy as <-; now apply Qlt_le_weak | eauto].
        -- intros [|j] y Hj Hy; simpl in Hy.
           ++ injection Hy as <-. exact Hxm.
           ++ apply (Hbefore j); [lia | exact Hy].
Qed.

(** [argmax] returns the first index of a greatest entry. *)
Lemma argmax_spec (l : list Q) :
  l <> [] ->
  exists i m,
    argmax l = OK i
    /\ nth_error l i = Some m
    /\ (forall j y, nth_error l j = Some y -> (y <= m)%Q)
    /\ (forall j y, j < i -> nth_error l j = Some y -> (y < m)%Q).
Proof.
  destruct l as [|x l]; [congruence | intros _]. simpl.
  destruct (argmax_from_spec l 0 x 1)
    as [[Hr Hall] | (k & m & Hr & Hk & Hlt & Hall & Hbefore)].
  - exists 0, x. rewrite Hr. repeat split.
    + intros [|j] y Hy; simpl in Hy;
        [injection Hy as <-; apply Qle_refl | eauto].
    + intros j y Hj. lia.
  - exists (S k), m. rewrite Hr. repeat split.
    + exact Hk.
    + intros [|j] y Hy; simpl in Hy;
        [injection Hy as <-; now apply Qlt_le_weak | eauto].
    + intros [|j] y Hj Hy; simpl in Hy.
      * injection Hy as <-. exact Hlt.
      * apply (Hbefore j); [lia | exact Hy].
Qed.

(** ** Similarity matcher *)

(** A row of zeros stores nothing: it has no norm, and its product with
    any row is the sum that nothing was added to. *)
Lemma row_norm_zero (x : list Z) :
  (forall a, In a x -> a = 0%Z) -> row_norm x = None.
Proof.
  intros Hzero. unfold row_norm.
  assert (Hsum : forall s,
             fold_left
               (fun s c =>
                  if (c =? 0)%Z then s
                  else (s + Float64.of_count c * Float64.of_count c)%float)
               x s = s).
  { induction x as [|c x IH]; intros s; [reflexivity|].
    cbn [fold_left]. rewrite (Hzero c (or_introl eq_refl)).
    change (0 =? 0)%Z with true. cbv iota. apply IH.
    intros a Ha. apply Hzero. now right. }
  rewrite Hsum. reflexivity.
Qed.

Lemma sparse_dot_nothing_stored (x : list (option float)) :
  (forall a, In a x -> a = None) ->
  forall y acc,
    fold_left
      (fun acc '(a, b) =>
         match a, b with
         | Some a, Some b => (acc + a * b)%float
         | _, _ => acc
         end)
      (combine x y) acc = acc.
Proof.
  induction x as [|a x IH]; intros Hnone y acc; [reflexivity|].
  destruct y as [|b y]; [reflexivity|].
  cbn [combine fold_left]. rewrite (Hnone a (or_introl eq_refl)).
  apply IH. intros c Hc. apply Hnone. now right.
Qed.

Lemma score_zero_l (x y : list Z) :
  (forall a, In a x -> a = 0%Z) -> score x y = 0%Q.
Proof.
  intros Hzero. unfold score, cosine, sparse_dot.
  rewrite sparse_dot_nothing_stored; [reflexivity|].
  unfold normalize. rewrite (row_norm_zero x Hzero).
  intros a Ha. apply in_map_iff in Ha as (c & <- & Hc).
  now rewrite (Hzero c Hc).
Qed.

Lemma count_pos (term : string) (tokens : list string) :
  In term tokens -> (0 < count term tokens)%Z.
Proof.
  unfold count. induction tokens as [|t tokens IH]; intros Hin; [contradiction|].
  simpl. destruct (String.eqb_spec term t) as [-> | Hne].
  - simpl. lia.
  - destruct Hin as [-> | Hin]; [congruence | auto].
Qed.

Lemma count_zero (term : string) (tokens : list string) :
  ~ In term tokens -> count term tokens = 0%Z.
Proof.
  unfold count. induction tokens as [|t tokens IH]; intros Hin; [reflexivity|].
  simpl. destruct (String.eqb_spec term t) as [-> | Hne].
  - exfalso. apply Hin. now left.
  - apply IH. intros H. apply Hin. now right.
Qed.

(** A target without any token of the vocabulary has the zero vector. *)
Lemma no_shared_token_vector (v : CountVectorizer) (target : string) :
  (forall t, In t (analyze target) -> ~ In t (vocabulary_ v)) ->
  forall a, In a (vector v target) -> a = 0%Z.
Proof.
  intros H a Ha.
  unfold vector in Ha. apply in_map_iff in Ha as (t & <- & Ht).
  apply count_zero. intros Hin. exact (H t Hin Ht).
Qed.

(** What the matcher returns on a document with elements: the candidate at
    the first index where the similarity to the target is greatest. *)
Lemma most_similar_spec (soup : PageElement) (path : string) (v : CountVectorizer) :
  vocabulary_ v <> [] ->
  find_all soup <> [] ->
  exists i r,
    find_most_similar_element_path soup path v = OK r
    /\ nth_error (all_elements_paths soup) i = Some r
    /\ (forall j c, nth_error (all_elements_paths soup) j = Some c ->
          (similarity v path c <= similarity v path r)%Q)
    /\ (forall j c, j < i -> nth_error (all_elements_paths soup) j = Some c ->
          (similarity v path c < similarity v path r)%Q).
Proof.
  intros Hvoc Hdoc.
  unfold find_most_similar_element_path, transform.
  destruct (vocabulary_ v) as [|term terms] eqn:Ev; [congruence | clear Hvoc].
  cbn [bind hd map].
  assert (Hpaths : all_elements_paths soup <> []).
  { unfold all_elements_paths. destruct (find_all soup); [congruence | discriminate]. }
  set (paths := all_elements_paths soup) in *.
  unfold cosine_similarity.
  destruct (map (vector v) paths) as [|y ys] eqn:Ey.
  { destruct paths; [congruence | discriminate]. }
  rewrite <- Ey. cbn [bind].
  destruct (argmax_spec (map (score (vector v path)) (map (vector v) paths)))
    as (i & m & Harg & Hnth & Hmax & Hfirst).
  { rewrite Ey. discriminate. }
  rewrite Harg. cbn [bind].
  rewrite map_map in Hnth, Hmax, Hfirst.
  rewrite nth_error_map in Hnth.
  destruct (nth_error paths i) as [r|] eqn:Hr; [|discriminate].
  injection Hnth as Hm.
  exists i, r. unfold index. rewrite Hr. repeat split.
  - intros j c Hc. unfold similarity. rewrite Hm.
    apply (Hmax j). rewrite nth_error_map, Hc. reflexivity.
  - intros j c Hj Hc. unfold similarity. rewrite Hm.
    apply (Hfirst j _ Hj). rewrite nth_error_map, Hc. reflexivity.
Qed.

(** C1, as the code has it. No guard tests for a document without
    elements and nothing signals [EmptyDocument]: the call does not return
    a path, it fails with the [ValueError] that the similarity computation
    raises on an empty candidate matrix. *)
Theorem empty_document_raises_value_error
    (soup : PageElement) (path : string) (v : CountVectorizer) :
  find_all soup = [] ->
  find_most_similar_element_path soup path v = Raise ValueError.
Proof.
  intros Hdoc.
  unfold find_most_similar_element_path, transform, all_elements_paths.
  rewrite Hdoc.
  destruct (vocabulary_ v); reflexivity.
Qed.

Lemma empty_document_raises_value_error_witness :
  find_all empty_document = []
  /\ find_most_similar_element_path empty_document "div" div_vocabulary
     = Raise ValueError.
Proof.
  split; [reflexivity|].
  apply (empty_document_raises_value_error empty_document "div" div_vocabulary).
  reflexivity.
Defined.

(** C1 fails as stated: on a document without elements the matcher does
    not signal [EmptyDocument]. *)
Lemma empty_document_not_signalled :
  find_all empty_document = []
  /\ find_most_similar_element_path empty_document "div" div_vocabulary
     <> Raise EmptyDocument.
Proof. split; [reflexivity | discriminate]. Qed.

(** C6, as the code has it. When the target path is the path of an
    element of the document, the matcher returns the first candidate in
    document order whose computed similarity is greatest. That candidate
    scores at least as much as the exact match, and it is the exact path
    whenever every candidate with another path scores strictly less than
    the exact match. Nothing more holds: the exact match need not score 1,
    and another candidate can tie with it or, by rounding, score more. *)
Theorem best_candidate_scores_at_least_exact_match
    (soup : PageElement) (path : string) (v : CountVectorizer) :
  vocabulary_ v <> [] ->
  In path (all_elements_paths soup) ->
  exists i r,
    find_most_similar_element_path soup path v = OK r
    /\ nth_error (all_elements_paths soup) i = Some r
    /\ (similarity v path path <= similarity v path r)%Q
    /\ (forall c, In c (all_elements_paths soup) ->
          (similarity v path c <= similarity v path r)%Q)
    /\ (forall j c, j < i -> nth_error (all_elements_paths soup) j = Some c ->
          (similarity v path c < similarity v path r)%Q)
    /\ ((forall c, In c (all_elements_paths soup) -> c <> path ->
           (similarity v path c < similarity v path path)%Q) ->
        r = path).
Proof.
  intros Hvoc Hin.
  assert (Hdoc : find_all soup <> []).
  { unfold all_elements_paths in Hin. destruct (find_all soup); [contradiction | discriminate]. }
  destruct (most_similar_spec soup path v Hvoc Hdoc)
    as (i & r & Hres & Hnth & Hmax & Hfirst).
  assert (Hall : forall c, In c (all_elements_paths soup) ->
                   (similarity v path c <= similarity v path r)%Q).
  { intros c Hc. apply In_nth_error in Hc as [k Hk]. exact (Hmax k c Hk). }
  exists i, r. repeat split; try assumption.
  - now apply Hall.
  - intros Hbelow. destruct (string_dec r path) as [Heq | Hne]; [exact Heq|].
    exfalso. apply nth_error_In in Hnth.
    pose proof (Hbelow r Hnth Hne) as Hlt.
    pose proof (Hall path Hin) as Hle.
    exact (Qlt_irrefl _ (Qlt_le_trans _ _ _ Hlt Hle)).
Qed.

Lemma best_candidate_scores_at_least_exact_match_witness :
  exists i r,
    find_most_similar_element_path div_div "[document]  -> div  -> div " div_vocabulary = OK r
    /\ nth_error (all_elements_paths div_div) i = Some r
    /\ (similarity div_vocabulary "[document]  -> div  -> div " "[document]  -> div  -> div "
        <= similarity div_vocabulary "[document]  -> div  -> div " r)%Q
    /\ (forall c, In c (all_elements_paths div_div) ->
          (similarity div_vocabulary "[document]  -> div  -> div " c
           <= similarity div_vocabulary "[document]  -> div  -> div " r)%Q)
    /\ (forall j c, j < i -> nth_error (all_elements_paths div_div) j = Some c ->
          (similarity div_vocabulary "[document]  -> div  -> div " c
           < similarity div_vocabulary "[document]  -> div  -> div " r)%Q)
    /\ ((forall c, In c (all_elements_paths div_div) ->
           c <> "[document]  -> div  -> div " ->
           (similarity div_vocabulary "[document]  -> div  -> div " c
            < similarity div_vocabulary "[document]  -> div  -> div "
                "[document]  -> div  -> div ")%Q) ->
        r = "[document]  -> div  -> div ").
Proof.
  apply (best_candidate_scores_at_least_exact_match div_div
           "[document]  -> div  -> div " div_vocabulary).
  - discriminate.
  - simpl. auto.
Defined.

(** C6 fails as stated: in [<div><div></div></div>] the path of the inner
    [div] is a candidate, yet the matcher, with the vocabulary fitted on the
    document, returns the path of the outer [div]: both have similarity 1
    to the target and the outer one comes first. *)
Lemma exact_match_loses_tie :
  In "[document]  -> div  -> div " (all_elements_paths div_div)
  /\ fit (map element_to_string (find_all div_div)) = OK div_vocabulary
  /\ find_most_similar_element_path div_div "[document]  -> div  -> div " div_vocabulary
     = OK "[document]  -> div "
  /\ find_most_similar_element_path div_div "[document]  -> div  -> div " div_vocabulary
     <> OK "[document]  -> div  -> div ".
Proof.
  split; [simpl; auto|].
  split; [reflexivity|].
  split; [reflexivity | discriminate].
Qed.

(** The exact match can also lose without a tie. In
    [<aa bb=..><aa bb=..><aa bb=..>] the paths have the count vectors
    (1,1), (2,2) and (3,3). Against the path of the outer tag, the
    computed score of that very path and of the second one is just below
    1, the score of the third one is 1, and the third path is returned. *)
Lemma exact_match_loses_by_rounding :
  all_elements_paths nested = nested_paths
  /\ fit (map element_to_string (find_all nested)) = OK aa_bb_vocabulary
  /\ map (vector aa_bb_vocabulary) nested_paths
     = [[1; 1]; [2; 2]; [3; 3]]%Z
  /\ map (similarity aa_bb_vocabulary "[document]  -> aa bb=") nested_paths
     = [(4503599627370495 # 4503599627370496)%Q;
        (4503599627370495 # 4503599627370496)%Q;
        1%Q]
  /\ find_most_similar_element_path nested "[document]  -> aa bb=" aa_bb_vocabulary
     = OK "[document]  -> aa bb= -> aa bb= -> aa bb=".
Proof. repeat split; vm_compute; reflexivity. Qed.

(** C7. On a document with elements the matcher returns the candidate at
    the first index where the similarity is greatest: no candidate is more
    similar and every earlier one is strictly less similar. When no token
    of the target is in the vocabulary, the similarity to every candidate
    is 0 and the path of the first element of the document is returned. *)
Theorem ties_go_to_first_candidate
    (soup : PageElement) (path : string) (v : CountVectorizer) :
  vocabulary_ v <> [] ->
  find_all soup <> [] ->
  (exists i r,
      find_most_similar_element_path soup path v = OK r
      /\ nth_error (all_elements_paths soup) i = Some r
      /\ (forall j c, nth_error (all_elements_paths soup) j = Some c ->
            (similarity v path c <= similarity v path r)%Q)
      /\ (forall j c, j < i -> nth_error (all_elements_paths soup) j = Some c ->
            (similarity v path c < similarity v path r)%Q))
  /\ ((forall t, In t (analyze path) -> ~ In t (vocabulary_ v)) ->
      (forall c, similarity v path c = 0%Q)
      /\ exists first rest,
           find_all soup = first :: rest
           /\ find_most_similar_element_path soup path v
              = OK (generate_element_path first)).
Proof.
  intros Hvoc Hdoc.
  pose proof (most_similar_spec soup path v Hvoc Hdoc) as Hspec.
  split; [exact Hspec|].
  intros Hnone.
  pose proof (no_shared_token_vector v path Hnone) as Hzero.
  assert (Hsim : forall c, similarity v path c = 0%Q).
  { intros c. unfold similarity. now apply score_zero_l. }
  split; [exact Hsim|].
  destruct Hspec as (i & r & Hres & Hnth & _ & Hfirst).
  unfold all_elements_paths in Hnth, Hfirst.
  destruct (find_all soup) as [|first rest] eqn:Hall; [congruence|].
  exists first, rest. split; [reflexivity|].
  destruct i as [|i].
  - simpl in Hnth. injection Hnth as <-. exact Hres.
  - exfalso.
    specialize (Hfirst 0 (generate_element_path first) (Nat.lt_0_succ i) eq_refl).
    rewrite !Hsim in Hfirst. exact (Qlt_irrefl _ Hfirst).
Qed.

Lemma ties_go_to_first_candidate_witness :
  (exists i r,
      find_most_similar_element_path page "zz" div_vocabulary = OK r
      /\ nth_error (all_elements_paths page) i = Some r
      /\ (forall j c, nth_error (all_elements_paths page) j = Some c ->
            (similarity div_vocabulary "zz" c <= similarity div_vocabulary "zz" r)%Q)
      /\ (forall j c, j < i -> nth_error (all_elements_paths page) j = Some c ->
            (similarity div_vocabulary "zz" c < similarity div_vocabulary "zz" r)%Q))
  /\ ((forall t, In t (analyze "zz") -> ~ In t (vocabulary_ div_vocabulary)) ->
      (forall c, similarity div_vocabulary "zz" c = 0%Q)
      /\ exists first rest,
           find_all page = first :: rest
           /\ find_most_similar_element_path page "zz" div_vocabulary
              = OK (generate_element_path first)).
Proof.
  apply (ties_go_to_first_candidate page "zz" div_vocabulary); discriminate.
Defined.

(** The similarities that are compared are the computed ones. Candidates
    whose count vectors are proportional have the same cosine, yet their
    computed scores can differ in the last place, and then they do not
    tie: against the target [aa], vector (1,0), the paths of
    [<aa bb=..><aa bb=..><aa bb=..>] score the same but for the third,
    which scores more and is returned. *)
Lemma proportional_candidates_need_not_tie :
  vector aa_bb_vocabulary "aa" = [1; 0]%Z
  /\ map (similarity aa_bb_vocabulary "aa") nested_paths
     = [(1592262918131443 # 2251799813685248)%Q;
        (1592262918131443 # 2251799813685248)%Q;
        (6369051672525773 # 9007199254740992)%Q]
  /\ find_most_similar_element_path nested "aa" aa_bb_vocabulary
     = OK "[document]  -> aa bb= -> aa bb= -> aa bb=".
Proof. repeat split; vm_compute; reflexivity. Qed.

(** ** The batch of target paths *)

Lemma most_similar_is_candidate
    (soup : PageElement) (path : string) (v : CountVectorizer) (r : string) :
  find_most_similar_element_path soup path v = OK r ->
  exists el, In el (find_all soup) /\ r = generate_element_path el.
Proof.
  unfold find_most_similar_element_path.
  destruct (transform v [path]) as [pv|]; [|discriminate].
  destruct (transform v (all_elements_paths soup)) as [pvs|]; [|discriminate].
  cbn [bind].
  destruct (cosine_similarity (hd [] pv) pvs) as [sims|]; [|discriminate].
  cbn [bind].
  destruct (argmax sims) as [i|]; [|discriminate].
  cbn [bind]. unfold index.
  destruct (nth_error (all_elements_paths soup) i) as [c|] eqn:Hc; [|discriminate].
  intros H. injection H as <-.
  apply nth_error_In in Hc. unfold all_elements_paths in Hc.
  apply in_map_iff in Hc as (el & <- & Hel). now exists el.
Qed.

Lemma most_similar_loop_spec (soup : PageElement) (v : CountVectorizer)
    (paths : list string) :
  forall acc out,
    most_similar_loop soup v paths acc = OK out ->
    exists results,
      Forall2 (fun p r => find_most_similar_element_path soup p v = OK r)
        paths results
      /\ out = (acc ++ filter non_empty results)%list.
Proof.
  induction paths as [|p paths IH]; intros acc out H; simpl in H.
  - injection H as <-. exists []. split; [constructor | now rewrite app_nil_r].
  - destruct (find_most_similar_element_path soup p v) as [r|] eqn:Hr;
      [|discriminate].
    cbn [bind] in H. apply IH in H as (results & Hall & ->).
    exists (r :: results). split; [now constructor|].
    destruct r as [|c r]; simpl; [reflexivity | now rewrite <- app_assoc].
Qed.

Lemma Forall2_result_of {A B : Type} (R : A -> B -> Prop)
    (xs : list A) (ys : list B) :
  Forall2 R xs ys -> forall y, In y ys -> exists x, In x xs /\ R x y.
Proof.
  induction 1 as [|x y xs ys HR _ IH]; intros y' Hy; [contradiction|].
  destruct Hy as [<- | Hy].
  - exists x. split; [now left | exact HR].
  - destruct (IH y' Hy) as (x' & Hx & HR'). exists x'. split; [now right | exact HR'].
Qed.

Lemma most_similar_loop_total (soup : PageElement) (v : CountVectorizer)
    (paths : list string) :
  vocabulary_ v <> [] -> find_all soup <> [] ->
  forall acc, exists out, most_similar_loop soup v paths acc = OK out.
Proof.
  intros Hvoc Hdoc.
  induction paths as [|p paths IH]; intros acc; simpl.
  - now exists acc.
  - destruct (most_similar_spec soup p v Hvoc Hdoc) as (i & r & -> & _).
    cbn [bind]. apply IH.
Qed.

(** C10. Whatever list [get_most_similar_paths] returns, each of its
    strings is the path of an element of the document, it is not longer
    than the list of target paths, and it holds the non-empty results of
    the target paths in their order. With a fitted vectorizer and a
    document that has elements, a list is returned. *)
Theorem get_most_similar_paths_from_candidates
    (soup : PageElement) (paths : list string) (v : CountVectorizer) :
  (forall out,
      get_most_similar_paths soup paths v = OK out ->
      (forall p, In p out ->
         exists el, In el (find_all soup) /\ p = generate_element_path el)
      /\ List.length out <= List.length paths
      /\ exists results,
           Forall2 (fun p r => find_most_similar_element_path soup p v = OK r)
             paths results
           /\ out = filter non_empty results)
  /\ (vocabulary_ v <> [] -> find_all soup <> [] ->
      exists out, get_most_similar_paths soup paths v = OK out).
Proof.
  split.
  - intros out H. unfold get_most_similar_paths in H.
    apply most_similar_loop_spec in H as (results & Hall & Hout).
    simpl in Hout. subst out.
    split; [|split].
    + intros p Hp. apply filter_In in Hp as [Hp _].
      destruct (Forall2_result_of _ _ _ Hall p Hp) as (target & _ & Hres).
      eapply most_similar_is_candidate; eassumption.
    + rewrite (Forall2_length Hall). apply filter_length_le.
    + now exists results.
  - intros Hvoc Hdoc. now apply most_similar_loop_total.
Qed.

Lemma get_most_similar_paths_from_candidates_witness :
  get_most_similar_paths div_div ["[document]  -> div  -> div "; "zz"] div_vocabulary
  = OK ["[document]  -> div "; "[document]  -> div "]
  /\ (forall p, In p ["[document]  -> div "; "[document]  -> div "] ->
        exists el, In el (find_all div_div) /\ p = generate_element_path el)
  /\ List.length ["[document]  -> div "; "[document]  -> div "]
     <= List.length ["[document]  -> div  -> div "; "zz"].
Proof.
  destruct (get_most_similar_paths_from_candidates div_div
              ["[document]  -> div  -> div "; "zz"] div_vocabulary)
    as [Hout _].
  destruct (Hout ["[document]  -> div "; "[document]  -> div "] eq_refl)
    as (Hfrom & Hlen & _).
  split; [reflexivity | split; assumption].
Defined.

(** ** Attribute codec *)

(** *** Characters and strings *)

Ltac by_cases c :=
  destruct c as [[] [] [] [] [] [] [] []]; vm_compute; congruence.

Lemma key_char_not_space (c : ascii) :
  key_char c = true -> Char.is_space c = false.
Proof. by_cases c. Qed.

Lemma key_char_not_equals (c : ascii) :
  key_char c = true -> Ascii.eqb "=" c = false.
Proof. by_cases c. Qed.

Lemma word_not_hyphen (c : ascii) :
  Char.is_word c = true -> Ascii.eqb "-" c = false.
Proof. by_cases c. Qed.

Lemma value_char_not_space (c : ascii) :
  Re.value_char c = true -> Char.is_space c = false.
Proof. by_cases c. Qed.

Lemma all_app (p : ascii -> bool) (a b : string) :
  Str.all p (a ++ b) = Str.all p a && Str.all p b.
Proof.
  induction a as [|c a IH]; simpl; [reflexivity|].
  now rewrite IH, andb_assoc.
Qed.

Lemma all_impl (p q : ascii -> bool) (s : string) :
  (forall c, p c = true -> q c = true) ->
  Str.all p s = true -> Str.all q s = true.
Proof.
  intros Hpq. induction s as [|c s IH]; simpl; [reflexivity|].
  intros H. apply andb_prop in H as [Hc Hs].
  now rewrite (Hpq c Hc), IH.
Qed.

Lemma span_all (p : ascii -> bool) (s : string) :
  Str.all p (fst (Str.span p s)) = true.
Proof.
  induction s as [|c s IH]; simpl; [reflexivity|].
  destruct (p c) eqn:Hc; [|reflexivity].
  destruct (Str.span p s) as [a b]. simpl in *. now rewrite Hc.
Qed.

Lemma hyphenated_all (s : string) :
  Str.all key_char (fst (Re.hyphenated s)) = true.
Proof.
  induction s as [|c s IH]; simpl; [reflexivity|].
  destruct (Char.is_word c) eqn:Hw.
  - destruct (Re.hyphenated s) as [a b]. simpl in *.
    unfold key_char at 1. now rewrite Hw.
  - destruct (Ascii.eqb c "-") eqn:Hh; [|reflexivity].
    destruct s as [|d s]; [reflexivity|].
    destruct (Char.is_word d); [|reflexivity].
    destruct (Re.hyphenated (String d s)) as [a b]. simpl in *.
    unfold key_char at 1. now rewrite Hw, Hh.
Qed.

Lemma contains_bracket (a b : string) :
  Str.contains "[" (a ++ String "[" b) = true.
Proof.
  induction a as [|c a IH]; simpl.
  - reflexivity.
  - rewrite IH. apply orb_true_r.
Qed.

Lemma contains_equals (key value : string) :
  Str.contains "=" (key ++ "=" ++ value) = true.
Proof.
  induction key as [|c key IH]; simpl.
  - reflexivity.
  - simpl in IH. rewrite IH. apply orb_true_r.
Qed.

Lemma split_once_equals (key value : string) :
  Str.mem "=" key = false ->
  Str.split_once "=" (key ++ "=" ++ value) = (key, value).
Proof.
  unfold Str.split_once.
  induction key as [|c key IH]; simpl; intros Hmem.
  - reflexivity.
  - apply orb_false_elim in Hmem as [Hc Hkey].
    rewrite Hc. simpl. simpl in IH. now rewrite (IH Hkey).
Qed.

Lemma all_key_no_equals (key : string) :
  Str.all key_char key = true -> Str.mem "=" key = false.
Proof.
  induction key as [|c key IH]; cbn [Str.all Str.mem]; [reflexivity|].
  intros H. apply andb_prop in H as [Hc Hkey].
  now rewrite (key_char_not_equals c Hc), IH.
Qed.

Lemma all_word_no_hyphen (key : string) :
  Str.all Char.is_word key = true -> Str.mem "-" key = false.
Proof.
  induction key as [|c key IH]; cbn [Str.all Str.mem]; [reflexivity|].
  intros H. apply andb_prop in H as [Hc Hkey].
  now rewrite (word_not_hyphen c Hc), IH.
Qed.

Lemma lstrip_unchanged (p : ascii -> bool) (s : string) :
  Str.all (fun c => negb (p c)) s = true -> Str.lstrip_by p s = s.
Proof.
  destruct s as [|c s]; simpl; [reflexivity|].
  intros H. apply andb_prop in H as [Hc _].
  apply negb_true_iff in Hc. now rewrite Hc.
Qed.

Lemma rstrip_unchanged (p : ascii -> bool) (s : string) :
  Str.all (fun c => negb (p c)) s = true -> Str.rstrip_by p s = s.
Proof.
  induction s as [|c s IH]; simpl; [reflexivity|].
  intros H. apply andb_prop in H as [Hc Hs].
  apply negb_true_iff in Hc. rewrite (IH Hs).
  destruct s; [now rewrite Hc | reflexivity].
Qed.

Lemma strip_unchanged (s : string) :
  Str.all Re.not_space s = true -> Str.strip s = s.
Proof.
  intros H. unfold Str.strip, Str.strip_by.
  rewrite lstrip_unchanged by exact H. now apply rstrip_unchanged.
Qed.

Lemma split_ws_one (s : string) :
  Str.all Re.not_space s = true ->
  forall cur, Re.split_ws_go false cur s = [cur ++ s].
Proof.
  induction s as [|c s IH]; simpl; intros H cur.
  - now rewrite append_nil_r.
  - apply andb_prop in H as [Hc Hs].
    apply negb_true_iff in Hc. rewrite Hc, (IH Hs).
    now rewrite append_assoc.
Qed.

(** *** Dictionaries *)

Lemma get_set_same {V : Type} (d : dict V) (key : string) (value : V) :
  Dict.get (Dict.set d key value) key = Some value.
Proof.
  induction d as [|[k v] d IH]; simpl.
  - now rewrite String.eqb_refl.
  - destruct (String.eqb k key) eqn:Hk; simpl; now rewrite Hk.
Qed.

Lemma get_set_other {V : Type} (d : dict V) (key other : string) (value : V) :
  other <> key ->
  Dict.get (Dict.set d other value) key = Dict.get d key.
Proof.
  intros Hne. apply String.eqb_neq in Hne.
  induction d as [|[k v] d IH]; simpl.
  - now rewrite Hne.
  - destruct (String.eqb k other) eqn:Hk; simpl.
    + apply String.eqb_eq in Hk. subst k. now rewrite Hne.
    + destruct (String.eqb k key); [reflexivity | exact IH].
Qed.

(** *** Tokens *)

Lemma findall_go_in {A : Type} (match_at : string -> option (A * nat)) (s : string) :
  forall skip x,
    In x (Re.findall_go match_at skip s) ->
    exists suffix n, match_at suffix = Some (x, n).
Proof.
  induction s as [|c s IH]; intros skip x; simpl; [contradiction|].
  destruct skip as [|k]; [|apply IH].
  destruct (match_at (String c s)) as [[groups len]|] eqn:Hm.
  - intros [<- | Hin]; [eauto | eapply IH; eassumption].
  - apply IH.
Qed.

Lemma bracket_group_shape (s : string) :
  Re.bracket_group s = "" \/ exists b, Re.bracket_group s = String "[" b.
Proof.
  unfold Re.bracket_group.
  destruct s as [|c s]; [now left|].
  destruct c as [[] [] [] [] [] [] [] []]; try (now left).
  destruct (Str.span Re.not_closing s) as [body r].
  destruct r as [|d r]; [now left|].
  destruct d as [[] [] [] [] [] [] [] []]; try (now left).
  right. eexists. reflexivity.
Qed.

(** A token of the tokenizer is a key of word characters and hyphens, an
    equals sign, a value without space or bracket, and possibly a
    bracketed list. *)
Lemma attribute_pattern_shape (s t : string) (n : nat) :
  Re.attribute_pattern s = Some (t, n) ->
  exists key value bracket,
    t = key ++ "=" ++ value ++ bracket
    /\ Str.all key_char key = true
    /\ Str.all Re.value_char value = true
    /\ (bracket = "" \/ exists b, bracket = String "[" b).
Proof.
  unfold Re.attribute_pattern.
  destruct s as [|c s]; [discriminate|].
  destruct (Char.is_word c); [|discriminate].
  pose proof (hyphenated_all (String c s)) as Hkey.
  destruct (Re.hyphenated (String c s)) as [key r]. simpl fst in Hkey.
  destruct r as [|d r1]; [discriminate|].
  destruct d as [[] [] [] [] [] [] [] []]; try discriminate.
  pose proof (span_all Re.value_char r1) as Hvalue.
  destruct (Str.span Re.value_char r1) as [value r2]. simpl fst in Hvalue.
  intros H. injection H as <- _.
  exists key, value, (Re.bracket_group r2).
  repeat split; try assumption. apply bracket_group_shape.
Qed.

(** A token without a bracket is [key=value] and has no white space. *)
Lemma plain_token (attr_str t : string) :
  In t (split_attributes_improved attr_str) ->
  Str.contains "[" t = false ->
  exists key value,
    t = key ++ "=" ++ value
    /\ Str.all key_char key = true
    /\ Str.all Re.not_space t = true.
Proof.
  intros Hin Hplain.
  apply findall_go_in in Hin as (suffix & n & Hm).
  apply attribute_pattern_shape in Hm
    as (key & value & bracket & -> & Hkey & Hvalue & [-> | [b ->]]).
  - exists key, value. rewrite append_nil_r. repeat split; [assumption|].
    rewrite !all_app.
    rewrite (all_impl key_char Re.not_space key); [| |exact Hkey].
    + rewrite (all_impl Re.value_char Re.not_space value); [reflexivity| |exact Hvalue].
      intros c Hc. unfold Re.not_space. now rewrite value_char_not_space.
    + intros c Hc. unfold Re.not_space. now rewrite key_char_not_space.
  - exfalso.
    replace (key ++ "=" ++ value ++ String "[" b)
      with ((key ++ "=" ++ value) ++ String "[" b) in Hplain
      by now rewrite !append_assoc.
    rewrite contains_bracket in Hplain. discriminate.
Qed.

(** What the loop does with a token without a bracket. *)
Lemma store_plain_token (attr_str key value : string) (attrs : dict AttrValue) :
  In (key ++ "=" ++ value) (split_attributes_improved attr_str) ->
  Str.contains "[" (key ++ "=" ++ value) = false ->
  Str.mem "=" key = false ->
  store_attribute attr_str attrs (key ++ "=" ++ value)
  = Dict.set attrs key (Scalar (Str.strip_chars quote_chars value)).
Proof.
  intros Hin Hplain Hkey.
  destruct (plain_token _ _ Hin Hplain) as (key' & value' & _ & _ & Hns).
  unfold store_attribute. rewrite Hplain.
  rewrite (strip_unchanged _ Hns).
  unfold Re.split_ws. rewrite (split_ws_one _ Hns "").
  change ("" ++ (key ++ "=" ++ value)) with (key ++ "=" ++ value).
  cbn [fold_left]. unfold store_plain.
  now rewrite contains_equals, split_once_equals.
Qed.

Lemma pair_pattern_keys (s g0 g1 g2 g3 : string) (n : nat) :
  Re.pair_pattern s = Some ((g0, g1, g2, g3), n) ->
  Str.all Char.is_word g0 = true /\ Str.all Char.is_word g2 = true.
Proof.
  unfold Re.pair_pattern.
  pose proof (span_all Char.is_word s) as Hkey.
  destruct (Str.span Char.is_word s) as [key r]. simpl fst in Hkey.
  destruct key as [|k key]; [discriminate|].
  destruct r as [|d r1]; [discriminate|].
  destruct d as [[] [] [] [] [] [] [] []]; try discriminate.
  destruct (match r1 with
            | String "[" r2 =>
                let '(body, r3) := Str.span Re.list_char r2 in
                match r3 with
                | String "]" _ =>
                    Some ((String k key, body, "", ""),
                          String.length (String k key) + 2 + String.length body + 1)
                | _ => None
                end
            | _ => None
            end) as [[[[[h0 h1] h2] h3] len]|] eqn:Hfirst.
  - intros H. injection H as <- <- <- <- _.
    destruct r1 as [|e r2]; [discriminate|].
    destruct e as [[] [] [] [] [] [] [] []]; try discriminate.
    destruct (Str.span Re.list_char r2) as [body r3].
    destruct r3 as [|f r3]; [discriminate|].
    destruct f as [[] [] [] [] [] [] [] []]; try discriminate.
    injection Hfirst as <- _ <- _ _. now split.
  - destruct (Str.span Re.not_space r1) as [value r'].
    destruct value; [discriminate|].
    intros H. injection H as <- _ <- _ _. now split.
Qed.

(** The bracket branch never writes a key that has a hyphen. *)
Lemma store_pairs_other (key : string) (pairs : list (string * string * string * string)) :
  Str.mem "-" key = true ->
  (forall pair, In pair pairs -> exists s n, Re.pair_pattern s = Some (pair, n)) ->
  forall attrs,
    Dict.get (fold_left store_pair pairs attrs) key = Dict.get attrs key.
Proof.
  intros Hhyphen.
  induction pairs as [|[[[g0 g1] g2] g3] pairs IH]; intros Hfrom attrs; simpl;
    [reflexivity|].
  rewrite IH by (intros pair Hpair; apply Hfrom; now right).
  destruct (Hfrom (g0, g1, g2, g3) (or_introl eq_refl)) as (s & n & Hm).
  apply pair_pattern_keys in Hm as [H0 H2].
  destruct g0 as [|c g0]; apply get_set_other; intros Heq; subst key.
  - apply all_word_no_hyphen in H2. congruence.
  - apply all_word_no_hyphen in H0. congruence.
Qed.

Lemma store_attribute_keeps (attr_str key t : string) (attrs : dict AttrValue) :
  Str.mem "-" key = true ->
  In t (split_attributes_improved attr_str) ->
  holds_key attr_str key attrs ->
  holds_key attr_str key (store_attribute attr_str attrs t).
Proof.
  intros Hhyphen Hin (value & Hvalue & Hget).
  destruct (Str.contains "[" t) eqn:Hplain.
  - exists value. split; [exact Hvalue|].
    unfold store_attribute. rewrite Hplain.
    rewrite store_pairs_other; [exact Hget | exact Hhyphen|].
    intros pair Hpair. eapply findall_go_in. exact Hpair.
  - destruct (plain_token _ _ Hin Hplain) as (key' & value' & -> & Hkey' & _).
    rewrite store_plain_token;
      [| exact Hin | exact Hplain | now apply all_key_no_equals].
    destruct (string_dec key' key) as [-> | Hne].
    + exists value'. split; [exact Hin | apply get_set_same].
    + exists value. split; [exact Hvalue|].
      now rewrite get_set_other.
Qed.

Lemma store_attributes_keep (attr_str key : string) (tokens : list string) :
  Str.mem "-" key = true ->
  (forall t, In t tokens -> In t (split_attributes_improved attr_str)) ->
  forall attrs,
    holds_key attr_str key attrs ->
    holds_key attr_str key (fold_left (store_attribute attr_str) tokens attrs).
Proof.
  intros Hhyphen.
  induction tokens as [|t tokens IH]; intros Hsub attrs Hholds; simpl;
    [exact Hholds|].
  apply IH; [intros t' Ht'; apply Hsub; now right|].
  apply store_attribute_keeps; [exact Hhyphen | apply Hsub; now left | exact Hholds].
Qed.

(** What the parser does for hyphenated keys. A token [key=value] of the
    attribute string whose key has hyphens, and which has no opening
    bracket, ends up as an entry under the whole hyphenated key, whatever
    else the string holds, bracketed lists included: the entry is the value
    of a token with that key, stripped of quotes. In particular the empty
    value of [data-v-52866abc=] is kept. *)
Lemma parse_attributes_hyphenated_key :
  (forall attr_str key value,
      In (key ++ "=" ++ value) (split_attributes_improved attr_str) ->
      Str.contains "[" (key ++ "=" ++ value) = false ->
      Str.mem "=" key = false ->
      Str.mem "-" key = true ->
      exists value',
        In (key ++ "=" ++ value') (split_attributes_improved attr_str)
        /\ Dict.get (parse_attributes attr_str) key
           = Some (Scalar (Str.strip_chars quote_chars value')))
  /\ parse_attributes "lang=zh data-v-52866abc="
     = [("lang", Scalar "zh"); ("data-v-52866abc", Scalar "")]
  /\ Dict.get (parse_attributes "data-v-52866abc= class=[btn, active]")
       "data-v-52866abc"
     = Some (Scalar "").
Proof.
  split; [|split; reflexivity].
  intros attr_str key value Hin Hplain Hkey Hhyphen.
  change (holds_key attr_str key (parse_attributes attr_str)).
  unfold parse_attributes.
  destruct (in_split _ _ Hin) as (before & after & Htokens).
  assert (Hsub : forall t, In t after -> In t (split_attributes_improved attr_str)).
  { intros t Ht. rewrite Htokens. apply in_or_app. right. now right. }
  pose proof (f_equal (fun l => fold_left (store_attribute attr_str) l []) Htokens)
    as Hfold.
  cbv beta in Hfold. rewrite fold_left_app in Hfold. cbn [fold_left] in Hfold.
  rewrite Hfold.
  apply (store_attributes_keep attr_str key after Hhyphen Hsub).
  rewrite store_plain_token by assumption.
  exists value. split; [exact Hin | apply get_set_same].
Qed.

Lemma parse_attributes_hyphenated_key_witness :
  exists value',
    In ("data-v-52866abc" ++ "=" ++ value')
      (split_attributes_improved "lang=zh data-v-52866abc= class=[btn, active]")
    /\ Dict.get (parse_attributes "lang=zh data-v-52866abc= class=[btn, active]")
         "data-v-52866abc"
       = Some (Scalar (Str.strip_chars quote_chars value')).
Proof.
  destruct parse_attributes_hyphenated_key as [Hall _].
  apply (Hall "lang=zh data-v-52866abc= class=[btn, active]" "data-v-52866abc" "").
  - vm_compute. auto.
  - reflexivity.
  - reflexivity.
  - reflexivity.
Defined.

(** C4 fails on the code. A token [key=value] whose value has an opening
    bracket is sent to the bracket branch, which scans the attribute string
    again with a key pattern of word characters only: the value is filed
    under the part of the key after its last hyphen and nothing under the
    hyphenated key. The descriptor of [<div data-bind=items[0]>] has such
    a token; the tokenizer keeps it whole, and the reverse locator then
    asks for an attribute [bind]. The same re-scan truncates the keys of
    lists (C5). *)
Theorem parse_attributes_truncates_bracketed_value_key :
  element_to_string
    (mkElement "div" [("data-bind", Scalar "items[0]")] None)
  = "div data-bind=items[0]"
  /\ split_attributes_improved "data-bind=items[0]" = ["data-bind=items[0]"]
  /\ Re.findall Re.pair_pattern "data-bind=items[0]"
     = [("", "", "bind", "items[0]")]
  /\ parse_attributes "data-bind=items[0]" = [("bind", Scalar "items[0]")]
  /\ Dict.get (parse_attributes "data-bind=items[0]") "data-bind" = None
  /\ segment_query "div data-bind=items[0]"
     = ("div", [("bind", Scalar "items[0]")]).
Proof. repeat split. Qed.

(** C5 fails on the code. The bracket branch reads the key with a pattern
    of word characters only, so a list under a hyphenated key is stored
    under the part of the key after its last hyphen. The descriptor of
    [<form accept-charset=...>] has such a token: the tokenizer keeps it
    whole, and the parser files its list under [charset]. *)
Theorem parse_attributes_truncates_list_key :
  element_to_string
    (mkElement "form" [("accept-charset", Multi ["utf-8"; "latin1"])] None)
  = "form accept-charset=['utf-8', 'latin1']"
  /\ split_attributes_improved "accept-charset=['utf-8', 'latin1']"
     = ["accept-charset=['utf-8', 'latin1']"]
  /\ parse_attributes "accept-charset=['utf-8', 'latin1']"
     = [("charset", Multi ["utf-8"; "latin1"])]
  /\ Dict.get (parse_attributes "accept-charset=['utf-8', 'latin1']")
       "accept-charset"
     = None.
Proof. repeat split. Qed.

(** The list of the design's example is parsed as C5 says. *)
Lemma parse_attributes_class_list :
  parse_attributes "class=[btn, active]" = [("class", Multi ["btn"; "active"])].
Proof. reflexivity. Qed.

(** ** Reverse locator *)

Lemma locate_step_unresolved (current_element : PageElement) (part : string) :
  unresolved current_element part ->
  locate_step current_element part = current_element.
Proof.
  unfold unresolved, locate_step.
  destruct (Str.contains "[document]" part); [reflexivity|].
  destruct (segment_query part) as [tag attrs]. now intros ->.
Qed.

(** C3, as the code has it. A segment that no descendant of the current
    element answers is passed over: the current element stays, and the
    segments after it are still looked up, from that element. The locator
    returns what the later segments lead to from the element reached before
    the unresolved one, which is that element when none of them resolves. *)
Theorem find_element_by_path_skips_unresolved
    (soup : PageElement) (path : string)
    (before : list string) (part : string) (after : list string) :
  Str.split " -> " path = (before ++ part :: after)%list ->
  unresolved (locate soup before) part ->
  find_element_by_path soup path = locate (locate soup before) after.
Proof.
  intros Hsplit Hnone.
  apply locate_step_unresolved in Hnone.
  unfold find_element_by_path, locate in *. rewrite Hsplit, fold_left_app.
  cbn [fold_left]. now rewrite Hnone.
Qed.

Lemma find_element_by_path_skips_unresolved_witness :
  find_element_by_path div_p "div -> span -> p" = locate (locate div_p ["div"]) ["p"].
Proof.
  apply (find_element_by_path_skips_unresolved div_p "div -> span -> p"
           ["div"] "span" ["p"]).
  - reflexivity.
  - reflexivity.
Defined.

(** C3 fails as stated: in [<div><p></p></div>] the path
    [div -> span -> p] reaches the [div], finds no [span] below it, and
    goes on to the segment [p], which it resolves from the [div]: the
    locator returns the [p], not the [div] reached before the unresolved
    segment. *)
Lemma later_segment_consulted :
  Str.split " -> " "div -> span -> p" = ["div"; "span"; "p"]
  /\ locate div_p ["div"] = div_tag
  /\ unresolved div_tag "span"
  /\ find_element_by_path div_p "div -> span -> p" = p_tag
  /\ p_tag <> div_tag.
Proof. repeat split. discriminate. Qed.

(** ** Path length *)

Lemma generate_element_path_includes_document_witness :
  exists above,
    ancestors html_element = (rev above ++ [document_object])%list
    /\ List.length above = ancestor_depth html_element
    /\ generate_element_path html_element
       = Str.join " -> "
           ("[document] " :: map element_to_string (above ++ [html_element])%list).
Proof.
  apply (generate_element_path_includes_document [Tag "html" [] []] html_element).
  - reflexivity.
  - simpl. auto.
Defined.

(** C2 fails as stated: the [html] tag of [<html></html>] has no ancestor
    but the document object, yet its path has two segments, the first for
    the document object. *)
Lemma top_level_path_has_two_segments :
  In html_element (find_all html_only)
  /\ ancestor_depth html_element = 0
  /\ generate_element_path html_element = "[document]  -> html "
  /\ Str.split " -> " (generate_element_path html_element)
     = ["[document] "; "html "]
  /\ List.length (Str.split " -> " (generate_element_path html_element))
     <> ancestor_depth html_element + 1.
Proof. repeat split; [simpl; auto | discriminate]. Qed.

(** ** A list under a key without hyphen *)

Lemma findall_go_skipped {A : Type} (match_at : string -> option (A * nat))
    (s : string) :
  forall skip, String.length s <= skip -> Re.findall_go match_at skip s = [].
Proof.
  induction s as [|c s IH]; intros skip Hlen; simpl; [reflexivity|].
  destruct skip as [|k]; simpl in Hlen; [lia|]. apply IH. lia.
Qed.

Lemma findall_whole {A : Type} (match_at : string -> option (A * nat))
    (s : string) (groups : A) :
  s <> "" ->
  match_at s = Some (groups, String.length s) ->
  Re.findall match_at s = [groups].
Proof.
  intros Hs Hm. unfold Re.findall.
  destruct s as [|c s]; [congruence|].
  cbn [Re.findall_go]. rewrite Hm. f_equal.
  apply findall_go_skipped. simpl. lia.
Qed.

Lemma span_stops (p : ascii -> bool) (a : string) (c : ascii) (r : string) :
  Str.all p a = true -> p c = false ->
  Str.span p (a ++ String c r) = (a, String c r).
Proof.
  intros Ha Hc. induction a as [|d a IH]; simpl.
  - now rewrite Hc.
  - simpl in Ha. apply andb_prop in Ha as [Hd Ha].
    now rewrite Hd, (IH Ha).
Qed.

Lemma hyphenated_word (key r : string) :
  Str.all Char.is_word key = true ->
  Re.hyphenated (key ++ String "=" r) = (key, String "=" r).
Proof.
  intros Hkey. induction key as [|c key IH].
  - reflexivity.
  - cbn [Str.all] in Hkey. apply andb_prop in Hkey as [Hc Hkey].
    cbn [append Re.hyphenated]. now rewrite Hc, (IH Hkey).
Qed.

Lemma length_append (a b : string) :
  String.length (a ++ b) = String.length a + String.length b.
Proof. induction a as [|c a IH]; simpl; [reflexivity | now rewrite IH]. Qed.

(** When the attribute string is one token [key=[v1,...]] whose key is a
    word, the parser maps the key to the list of the values, each stripped
    of spaces, quotes and brackets. *)
Lemma parse_attributes_word_list (key body : string) :
  key <> "" ->
  Str.all Char.is_word key = true ->
  Str.all Re.list_char body = true ->
  parse_attributes (key ++ "=[" ++ body ++ "]")
  = [(key, Multi (map (Str.strip_chars item_chars) (Str.split "," body)))].
Proof.
  intros Hne Hkey Hbody.
  assert (Hclose : Str.all Re.not_closing body = true).
  { apply (all_impl Re.list_char); [|exact Hbody].
    intros c. unfold Re.list_char, Re.not_closing.
    intros H. now apply andb_prop in H as [-> _]. }
  set (s := key ++ "=[" ++ body ++ "]").
  assert (Hs : s <> "") by (subst s; destruct key; [congruence | discriminate]).
  assert (Htokens : split_attributes_improved s = [s]).
  { apply findall_whole; [exact Hs|].
    subst s. unfold Re.attribute_pattern.
    destruct key as [|c key]; [congruence|].
    cbn [append]. cbn [Str.all] in Hkey.
    destruct (Char.is_word c) eqn:Hc; [|discriminate].
    change (String c (key ++ String "=" (String "[" (body ++ "]"))))
      with (String c key ++ String "=" (String "[" (body ++ "]"))).
    rewrite hyphenated_word by (cbn [Str.all]; now rewrite Hc).
    cbn [Str.span].
    change (Re.value_char "[") with false. cbv iota.
    unfold Re.bracket_group.
    rewrite (span_stops Re.not_closing body "]" "" Hclose eq_refl).
    reflexivity. }
  assert (Hpairs : Re.findall Re.pair_pattern s = [(key, body, "", "")]).
  { apply findall_whole; [exact Hs|].
    subst s. unfold Re.pair_pattern.
    change (key ++ "=[" ++ body ++ "]")
      with (key ++ String "=" (String "[" (body ++ "]"))).
    rewrite (span_stops Char.is_word key "=" _ Hkey eq_refl).
    destruct key as [|c key]; [congruence|].
    rewrite (span_stops Re.list_char body "]" "" Hbody eq_refl).
    do 2 f_equal. rewrite length_append. simpl.
    rewrite length_append. simpl. lia. }
  unfold parse_attributes. rewrite Htokens. cbn [fold_left].
  unfold store_attribute.
  assert (Hbracket : Str.contains "[" s = true).
  { subst s.
    replace (key ++ "=[" ++ body ++ "]") with ((key ++ "=") ++ String "[" (body ++ "]"))
      by now rewrite append_assoc.
    apply contains_bracket. }
  rewrite Hbracket, Hpairs. cbn [fold_left]. unfold store_pair.
  destruct key as [|c key]; [congruence | reflexivity].
Qed.

(* ================================================================== *)
(** * Further properties of the module *)

(** ** Text cleaning *)

Lemma sub_ws_empty_keep (s : string) :
  forall in_ws, sub_ws_go "" in_ws s = keep Re.not_space s.
Proof.
  induction s as [|c s IH]; intros in_ws; simpl; [reflexivity|].
  unfold Re.not_space at 1.
  destruct (Char.is_space c); simpl.
  - destruct in_ws; apply IH.
  - now rewrite IH.
Qed.

Lemma keep_all (p : ascii -> bool) (s : string) : Str.all p (keep p s) = true.
Proof.
  induction s as [|c s IH]; simpl; [reflexivity|].
  destruct (p c) eqn:Hc; simpl; [now rewrite Hc | exact IH].
Qed.

Lemma keep_unchanged (p : ascii -> bool) (s : string) :
  Str.all p s = true -> keep p s = s.
Proof.
  induction s as [|c s IH]; simpl; [reflexivity|].
  intros H. apply andb_prop in H as [Hc Hs]. now rewrite Hc, IH.
Qed.

Lemma keep_app (p : ascii -> bool) (a b : string) :
  keep p (a ++ b) = keep p a ++ keep p b.
Proof.
  induction a as [|c a IH]; simpl; [reflexivity|].
  destruct (p c); simpl; now rewrite IH.
Qed.

(** X1. [clean_text] deletes the white space and nothing else: the result
    is the text without its white-space characters, the others in their
    order (punctuation included); it has no white space left, cleaning it
    again changes nothing, and cleaning a concatenation is concatenating
    the cleaned parts. *)
Theorem clean_text_removes_white_space :
  forall text,
    clean_text text = keep Re.not_space text
    /\ Str.all Re.not_space (clean_text text) = true
    /\ clean_text (clean_text text) = clean_text text
    /\ forall other, clean_text (text ++ other) = clean_text text ++ clean_text other.
Proof.
  intros text. unfold clean_text. rewrite !sub_ws_empty_keep.
  split; [reflexivity|]. split; [apply keep_all|]. split.
  - apply keep_unchanged, keep_all.
  - intros other. rewrite !sub_ws_empty_keep. apply keep_app.
Qed.

(** ** Path builder *)

Lemma append_empty (a b : string) : a ++ b = "" -> a = "".
Proof. destruct a; [reflexivity | discriminate]. Qed.

Lemma descriptor_non_empty (e : Element) :
  name e <> "" -> element_to_string e <> "".
Proof.
  intros Hn H. unfold element_to_string in H. now apply append_empty in H.
Qed.

Lemma path_parts_non_empty (e : Element) : name e <> "" -> path_parts e <> [].
Proof. destruct e as [[|c n] a up]; simpl; [congruence | discriminate]. Qed.

(** X2. How a path grows. The path of an element without a name is
    empty. The path of a named element is its descriptor alone when it has
    no parent or a parent without a name, and otherwise the path of its
    parent, the separator, and its descriptor. *)
Theorem generate_element_path_extends (n : string) (a : dict AttrValue)
    (up : option Element) :
  generate_element_path (mkElement "" a up) = ""
  /\ (n <> "" ->
      generate_element_path (mkElement n a up)
      = match up with
        | Some p =>
            if has_name p
            then generate_element_path p ++ " -> "
                 ++ element_to_string (mkElement n a up)
            else element_to_string (mkElement n a up)
        | None => element_to_string (mkElement n a up)
        end).
Proof.
  split; [reflexivity|].
  intros Hn. destruct n as [|c n]; [congruence|].
  unfold generate_element_path. cbn [path_parts].
  destruct up as [p|]; [|reflexivity].
  unfold has_name. destruct p as [[|d pn] pa pup]; [reflexivity|].
  cbn [name String.eqb negb].
  cbn [rev]. rewrite join_snoc; [reflexivity|].
  intros H. apply app_eq_nil in H as [_ H]. discriminate.
Qed.

Lemma generate_element_path_extends_witness :
  generate_element_path h1_element
  = generate_element_path body_element ++ " -> " ++ element_to_string h1_element.
Proof.
  destruct (generate_element_path_extends "h1" [("id", Scalar "main")]
              (Some body_element)) as [_ H].
  apply H. discriminate.
Defined.

Lemma generate_element_path_non_empty (e : Element) :
  name e <> "" -> generate_element_path e <> "".
Proof.
  intros Hn. unfold generate_element_path.
  destruct e as [[|c n] a up]; [simpl in Hn; congruence|].
  cbn [path_parts rev].
  destruct (join_ends_with " -> "
              (rev match up with Some p => path_parts p | None => [] end)
              (element_to_string (mkElement (String c n) a up))) as [before ->].
  intros H. destruct before; simpl in H; discriminate.
Qed.

(** Every candidate path of a parsed document is a non-empty string. *)
Lemma candidate_non_empty (contents : list PageElement) (r : string) :
  forallb named_tree contents = true ->
  In r (all_elements_paths (BeautifulSoup contents)) ->
  non_empty r = true.
Proof.
  intros Hnamed Hin. unfold all_elements_paths in Hin.
  apply in_map_iff in Hin as (el & <- & Hel).
  destruct (descendants_chain (BeautifulSoup contents)
              (handle (BeautifulSoup contents) None) el Hnamed Hel)
    as (mid & _ & Hmid).
  simpl in Hmid. apply andb_prop in Hmid as [Hname _].
  unfold has_name in Hname. apply negb_true_iff, String.eqb_neq in Hname.
  pose proof (generate_element_path_non_empty el Hname) as Hne.
  unfold non_empty. apply negb_true_iff, String.eqb_neq. exact Hne.
Qed.

(** ** The batch of target paths, continued *)

Lemma filter_all {A : Type} (p : A -> bool) (l : list A) :
  (forall x, In x l -> p x = true) -> filter p l = l.
Proof.
  induction l as [|x l IH]; intros H; simpl; [reflexivity|].
  rewrite (H x (or_introl eq_refl)), IH; [reflexivity|].
  intros y Hy. apply H. now right.
Qed.

Lemma most_similar_in_candidates
    (soup : PageElement) (path : string) (v : CountVectorizer) (r : string) :
  find_most_similar_element_path soup path v = OK r ->
  In r (all_elements_paths soup).
Proof.
  intros H. apply most_similar_is_candidate in H as (el & Hel & ->).
  unfold all_elements_paths. now apply in_map.
Qed.

(** X3. On a parsed document with elements, and with a fitted
    vectorizer, no target path is dropped: a candidate path is never the
    empty string, so the batch returns exactly one best match per target
    path, in the order of the targets. *)
Theorem every_target_gets_a_result
    (contents : list PageElement) (paths : list string) (v : CountVectorizer) :
  forallb named_tree contents = true ->
  find_all (BeautifulSoup contents) <> [] ->
  vocabulary_ v <> [] ->
  exists out,
    get_most_similar_paths (BeautifulSoup contents) paths v = OK out
    /\ Forall2
         (fun p r =>
            find_most_similar_element_path (BeautifulSoup contents) p v = OK r)
         paths out
    /\ List.length out = List.length paths.
Proof.
  intros Hnamed Hdoc Hvoc.
  destruct (most_similar_loop_total (BeautifulSoup contents) v paths Hvoc Hdoc [])
    as [out Hout].
  exists out. unfold get_most_similar_paths. split; [exact Hout|].
  apply most_similar_loop_spec in Hout as (results & Hall & ->).
  cbn [app]. rewrite filter_all.
  - split; [exact Hall | symmetry; exact (Forall2_length Hall)].
  - intros r Hr.
    destruct (Forall2_result_of _ _ _ Hall r Hr) as (p & _ & Hres).
    apply (candidate_non_empty contents r Hnamed).
    eapply most_similar_in_candidates. exact Hres.
Qed.

Lemma every_target_gets_a_result_witness :
  exists out,
    get_most_similar_paths
      (BeautifulSoup [Tag "div" [] [Tag "div" [] []]])
      ["[document]  -> div  -> div "; "zz"] div_vocabulary = OK out
    /\ Forall2
         (fun p r =>
            find_most_similar_element_path
              (BeautifulSoup [Tag "div" [] [Tag "div" [] []]]) p div_vocabulary
            = OK r)
         ["[document]  -> div  -> div "; "zz"] out
    /\ List.length out = List.length ["[document]  -> div  -> div "; "zz"].
Proof.
  apply (every_target_gets_a_result [Tag "div" [] [Tag "div" [] []]]
           ["[document]  -> div  -> div "; "zz"] div_vocabulary).
  - reflexivity.
  - discriminate.
  - discriminate.
Defined.

Lemma unfitted_raises (soup : PageElement) (path : string) (v : CountVectorizer) :
  vocabulary_ v = [] ->
  find_most_similar_element_path soup path v = Raise ValueError.
Proof.
  intros H. unfold find_most_similar_element_path, transform. now rewrite H.
Qed.

Lemma no_candidate_raises (soup : PageElement) (path : string) (v : CountVectorizer) :
  find_all soup = [] ->
  find_most_similar_element_path soup path v = Raise ValueError.
Proof.
  intros H.
  unfold find_most_similar_element_path, transform, all_elements_paths.
  rewrite H. destruct (vocabulary_ v); reflexivity.
Qed.

(** X4. The batch on a document without elements. Without any target
    path it returns the empty list; with at least one target path it
    returns no list at all: the [ValueError] of the first target ends the
    call. *)
Theorem get_most_similar_paths_empty_document
    (soup : PageElement) (v : CountVectorizer) :
  find_all soup = [] ->
  get_most_similar_paths soup [] v = OK []
  /\ forall path rest,
       get_most_similar_paths soup (path :: rest) v = Raise ValueError.
Proof.
  intros Hdoc. split; [reflexivity|].
  intros path rest. unfold get_most_similar_paths. cbn [most_similar_loop].
  now rewrite (no_candidate_raises soup path v Hdoc).
Qed.

Lemma get_most_similar_paths_empty_document_witness :
  get_most_similar_paths empty_document [] div_vocabulary = OK []
  /\ forall path rest,
       get_most_similar_paths empty_document (path :: rest) div_vocabulary
       = Raise ValueError.
Proof.
  apply (get_most_similar_paths_empty_document empty_document div_vocabulary).
  reflexivity.
Defined.

(** ** The entry point *)

Lemma nodup_empty {A : Type} (dec : forall x y : A, {x = y} + {x <> y})
    (l : list A) :
  nodup dec l = [] <-> l = [].
Proof.
  split; [|now intros ->].
  destruct l as [|x l]; [reflexivity|]. intros H.
  assert (Hin : In x (nodup dec (x :: l))) by (apply nodup_In; now left).
  rewrite H in Hin. contradiction.
Qed.

Lemma flat_map_empty {A B : Type} (f : A -> list B) (l : list A) :
  (forall x, In x l -> f x = []) -> flat_map f l = [].
Proof.
  induction l as [|x l IH]; intros H; simpl; [reflexivity|].
  rewrite (H x (or_introl eq_refl)), IH; [reflexivity|].
  intros y Hy. apply H. now right.
Qed.

Lemma insert_sorted_not_nil (t : string) (l : list string) :
  insert_sorted t l <> [].
Proof.
  destruct l as [|u rest]; simpl; [discriminate|].
  destruct (String.leb t u); discriminate.
Qed.

Lemma sorted_not_nil (l : list string) : l <> [] -> sorted l <> [].
Proof.
  destruct l as [|t ts]; [congruence|]. intros _.
  unfold sorted. simpl. apply insert_sorted_not_nil.
Qed.

Lemma fit_vocabulary (docs : list string) :
  (flat_map analyze docs = [] -> fit docs = Raise ValueError)
  /\ (flat_map analyze docs <> [] ->
      exists v, fit docs = OK v /\ vocabulary_ v <> []).
Proof.
  unfold fit. split; intros H.
  - now rewrite H.
  - assert (Hs : sorted (nodup string_dec (flat_map analyze docs)) <> []).
    { apply sorted_not_nil. intros Hn. apply nodup_empty in Hn. congruence. }
    destruct (sorted (nodup string_dec (flat_map analyze docs))) as [|t ts];
      [congruence|].
    eexists. split; [reflexivity | discriminate].
Qed.

(** X5. The entry point fails with [ValueError] whenever no descriptor
    of the document has a token of two or more word characters: the
    vocabulary is empty and the vectorizer cannot be fitted. This holds for
    a document without elements and for one whose tags all have one-letter
    names and no attributes, and whatever the rules are, an empty rule
    mapping included. *)
Theorem get_most_similar_element_without_tokens
    (soup : PageElement) (rules : dict (list string)) :
  (forall el, In el (find_all soup) -> analyze (element_to_string el) = []) ->
  get_most_similar_element soup rules = Raise ValueError.
Proof.
  intros Hnone. unfold get_most_similar_element.
  destruct (fit_vocabulary (map element_to_string (find_all soup))) as [Hfail _].
  rewrite Hfail; [reflexivity|].
  apply flat_map_empty. intros d Hd.
  apply in_map_iff in Hd as (el & <- & Hel). now apply Hnone.
Qed.

Lemma get_most_similar_element_without_tokens_witness :
  get_most_similar_element (BeautifulSoup [Tag "p" [] [Tag "b" [] []]]) []
  = Raise ValueError.
Proof.
  apply (get_most_similar_element_without_tokens
           (BeautifulSoup [Tag "p" [] [Tag "b" [] []]]) []).
  intros el Hel. simpl in Hel. destruct Hel as [<- | [<- | []]]; reflexivity.
Defined.

Ltac by_char c := destruct c as [[] [] [] [] [] [] [] []]; vm_compute; reflexivity.

Lemma lower_keeps_word (c : ascii) :
  Char.is_word (Char.lower c) = Char.is_word c.
Proof. by_char c. Qed.

Lemma lower_idempotent (c : ascii) : Char.lower (Char.lower c) = Char.lower c.
Proof. by_char c. Qed.

Lemma lower_app (a b : string) : Str.lower (a ++ b) = Str.lower a ++ Str.lower b.
Proof. induction a as [|c a IH]; simpl; [reflexivity | now rewrite IH]. Qed.

Lemma lower_length (s : string) : String.length (Str.lower s) = String.length s.
Proof. induction s as [|c s IH]; simpl; [reflexivity | now rewrite IH]. Qed.

Lemma lower_all_word (s : string) :
  Str.all Char.is_word (Str.lower s) = Str.all Char.is_word s.
Proof.
  induction s as [|c s IH]; simpl; [reflexivity|].
  now rewrite lower_keeps_word, IH.
Qed.

(** A word followed by a character that is not a word character is the
    first run of the text. *)
Lemma word_runs_first (w : string) (c : ascii) (r : string) :
  Str.all Char.is_word w = true ->
  Char.is_word c = false ->
  forall cur,
    cur ++ w <> "" ->
    word_runs cur (w ++ String c r) = (cur ++ w) :: word_runs "" r.
Proof.
  intros Hw Hc. induction w as [|d w IH]; intros cur Hne.
  - rewrite append_nil_r in *. cbn [append word_runs]. rewrite Hc.
    destruct cur; [congruence | reflexivity].
  - cbn [Str.all] in Hw. apply andb_prop in Hw as [Hd Hw].
    cbn [append word_runs]. rewrite Hd.
    rewrite (IH Hw).
    + now rewrite append_assoc.
    + destruct cur; discriminate.
Qed.

(** The name of a tag, lower-cased, is a token of its descriptor as soon
    as it is a word of two characters or more. *)
Lemma descriptor_has_name_token (e : Element) :
  Str.all Char.is_word (name e) = true ->
  2 <= String.length (name e) ->
  In (Str.lower (name e)) (analyze (element_to_string e)).
Proof.
  intros Hw Hlen. unfold analyze, element_to_string.
  rewrite lower_app.
  change (Str.lower (" " ++ ?x)) with (String " " (Str.lower x)).
  cbn [Str.lower append].
  change (Char.lower " ") with " "%char.
  rewrite (word_runs_first (Str.lower (name e)) " "
             _ (eq_trans (lower_all_word _) Hw) eq_refl "").
  - cbn [append filter]. rewrite lower_length.
    destruct (2 <=? String.length (name e))%nat eqn:H2; [now left|].
    apply Nat.leb_gt in H2. lia.
  - cbn [append]. destruct (name e); [simpl in Hlen; lia | discriminate].
Qed.

(** X6. The entry point on a parsed document that has a tag whose name
    is a word of two characters or more: the vectorizer is fitted on the
    descriptors, and the call returns exactly one best match for each path
    of the rules, taken list after list in the order of the rules. *)
Theorem get_most_similar_element_one_per_path
    (contents : list PageElement) (rules : dict (list string)) :
  forallb named_tree contents = true ->
  (exists el, In el (find_all (BeautifulSoup contents))
              /\ Str.all Char.is_word (name el) = true
              /\ 2 <= String.length (name el)) ->
  exists v out,
    fit (map element_to_string (find_all (BeautifulSoup contents))) = OK v
    /\ get_most_similar_element (BeautifulSoup contents) rules = OK out
    /\ Forall2
         (fun p r =>
            find_most_similar_element_path (BeautifulSoup contents) p v = OK r)
         (List.concat (map snd rules)) out.
Proof.
  intros Hnamed (el & Hel & Hword & Hlen).
  assert (Hdoc : find_all (BeautifulSoup contents) <> []).
  { intros H. rewrite H in Hel. contradiction. }
  destruct (fit_vocabulary (map element_to_string (find_all (BeautifulSoup contents))))
    as [_ Hfit].
  destruct Hfit as (v & Hv & Hvoc).
  { intros H.
    assert (Hin : In (Str.lower (name el))
                    (flat_map analyze
                       (map element_to_string (find_all (BeautifulSoup contents))))).
    { apply in_flat_map. exists (element_to_string el). split.
      - now apply in_map.
      - now apply descriptor_has_name_token. }
    rewrite H in Hin. contradiction. }
  destruct (most_similar_loop_total (BeautifulSoup contents) v
              (List.concat (map snd rules)) Hvoc Hdoc []) as [out Hout].
  exists v, out. split; [exact Hv|].
  unfold get_most_similar_element. rewrite Hv. cbn [bind].
  unfold parse_rules_to_paths. rewrite extend_all. cbn [app].
  unfold get_most_similar_paths. split; [exact Hout|].
  apply most_similar_loop_spec in Hout as (results & Hall & ->).
  cbn [app]. rewrite filter_all; [exact Hall|].
  intros r Hr.
  destruct (Forall2_result_of _ _ _ Hall r Hr) as (p & _ & Hres).
  apply (candidate_non_empty contents r Hnamed).
  eapply most_similar_in_candidates. exact Hres.
Qed.

Lemma get_most_similar_element_one_per_path_witness :
  exists v out,
    fit (map element_to_string
           (find_all (BeautifulSoup [Tag "div" [] [Tag "div" [] []]]))) = OK v
    /\ get_most_similar_element (BeautifulSoup [Tag "div" [] [Tag "div" [] []]])
         [("a", ["div"; "zz"]); ("b", ["div -> div"])] = OK out
    /\ Forall2
         (fun p r =>
            find_most_similar_element_path
              (BeautifulSoup [Tag "div" [] [Tag "div" [] []]]) p v = OK r)
         (List.concat (map snd [("a", ["div"; "zz"]); ("b", ["div -> div"])])) out.
Proof.
  apply (get_most_similar_element_one_per_path [Tag "div" [] [Tag "div" [] []]]
           [("a", ["div"; "zz"]); ("b", ["div -> div"])]).
  - reflexivity.
  - exists (mkElement "div" [] (Some (mkElement ROOT_TAG_NAME [] None))).
    split; [simpl; auto | split; [reflexivity | simpl; lia]].
Defined.

(** ** What the matcher is blind to *)

Lemma count_permutation (term : string) (l1 l2 : list string) :
  Permutation l1 l2 -> count term l1 = count term l2.
Proof.
  unfold count.
  induction 1 as [|x l l' _ IH | x y l | l l' l'' _ IH1 _ IH2]; simpl.
  - reflexivity.
  - destruct (String.eqb term x); simpl; lia.
  - destruct (String.eqb term x), (String.eqb term y); reflexivity.
  - now rewrite IH1.
Qed.

Lemma lower_lower (s : string) : Str.lower (Str.lower s) = Str.lower s.
Proof.
  induction s as [|c s IH]; simpl; [reflexivity|].
  now rewrite lower_idempotent, IH.
Qed.

(** X8. The matcher sees a target path as a bag of lower-cased words:
    two targets whose tokens are the same up to their order get the same
    answer, and so do a target and its lower-cased form. *)
Theorem target_is_a_bag_of_words
    (soup : PageElement) (v : CountVectorizer) (path : string) :
  (forall other,
      Permutation (analyze path) (analyze other) ->
      find_most_similar_element_path soup path v
      = find_most_similar_element_path soup other v)
  /\ find_most_similar_element_path soup (Str.lower path) v
     = find_most_similar_element_path soup path v.
Proof.
  assert (Hbag : forall a b,
             Permutation (analyze a) (analyze b) ->
             find_most_similar_element_path soup a v
             = find_most_similar_element_path soup b v).
  { intros a b Hperm.
    assert (Hvec : vector v a = vector v b).
    { unfold vector. apply map_ext. intros term.
      now apply count_permutation. }
    unfold find_most_similar_element_path, transform.
    destruct (vocabulary_ v); [reflexivity|].
    cbn [bind hd map]. now rewrite Hvec. }
  split; [apply Hbag|].
  apply Hbag. unfold analyze. now rewrite lower_lower.
Qed.

Lemma target_is_a_bag_of_words_witness :
  find_most_similar_element_path page "html -> body" div_vocabulary
  = find_most_similar_element_path page "BODY, html" div_vocabulary.
Proof.
  destruct (target_is_a_bag_of_words page div_vocabulary "html -> body") as [H _].
  apply H. apply perm_swap.
Defined.

(** ** Tokenizer *)

Lemma span_split (p : ascii -> bool) (s : string) :
  s = fst (Str.span p s) ++ snd (Str.span p s).
Proof.
  induction s as [|c s IH]; simpl; [reflexivity|].
  destruct (p c); [|reflexivity].
  destruct (Str.span p s) as [a b]. simpl in *. now rewrite <- IH.
Qed.

Lemma hyphenated_split (s : string) :
  s = fst (Re.hyphenated s) ++ snd (Re.hyphenated s).
Proof.
  induction s as [|c s IH]; simpl; [reflexivity|].
  destruct (Char.is_word c).
  - destruct (Re.hyphenated s) as [a b]. simpl in *. now rewrite <- IH.
  - destruct (Ascii.eqb c "-"); [|reflexivity].
    destruct s as [|d s]; [reflexivity|].
    destruct (Char.is_word d); [|reflexivity].
    destruct (Re.hyphenated (String d s)) as [a b]. simpl in *. now rewrite <- IH.
Qed.

Lemma bracket_group_prefix (s : string) :
  exists post, s = Re.bracket_group s ++ post.
Proof.
  unfold Re.bracket_group.
  destruct s as [|c s]; [now exists ""|].
  destruct (Ascii.eqb_spec c "[") as [-> | Hc].
  - pose proof (span_split Re.not_closing s) as Hs.
    destruct (Str.span Re.not_closing s) as [body r]. simpl in Hs.
    destruct r as [|d r]; [now exists (String "[" s)|].
    destruct (Ascii.eqb_spec d "]") as [-> | Hd].
    + exists r. rewrite Hs. cbn [append]. now rewrite append_assoc.
    + exists (String "[" s).
      destruct d as [[] [] [] [] [] [] [] []]; try reflexivity. congruence.
  - exists (String c s).
    destruct c as [[] [] [] [] [] [] [] []]; try reflexivity. congruence.
Qed.

(** A match of the tokenizer's pattern: the token is a prefix of the text,
    its key starts with a word character. *)
Lemma attribute_pattern_parts (s t : string) (n : nat) :
  Re.attribute_pattern s = Some (t, n) ->
  exists c key value bracket post,
    t = String c key ++ "=" ++ value ++ bracket
    /\ s = t ++ post
    /\ n = String.length t
    /\ Char.is_word c = true
    /\ Str.all key_char key = true
    /\ Str.all Re.value_char value = true
    /\ (bracket = "" \/ exists b, bracket = String "[" b).
Proof.
  unfold Re.attribute_pattern.
  destruct s as [|c s]; [discriminate|].
  destruct (Char.is_word c) eqn:Hc; [|discriminate].
  pose proof (hyphenated_all (String c s)) as Hkey.
  pose proof (hyphenated_split (String c s)) as Hsplit.
  cbn [Re.hyphenated] in Hkey, Hsplit |- *. rewrite Hc in Hkey, Hsplit |- *.
  destruct (Re.hyphenated s) as [key r]. cbn [fst snd] in Hkey, Hsplit.
  destruct r as [|d r1]; [discriminate|].
  destruct (Ascii.eqb_spec d "=") as [-> | Hd];
    [|destruct d as [[] [] [] [] [] [] [] []]; try discriminate; congruence].
  pose proof (span_all Re.value_char r1) as Hvalue.
  pose proof (span_split Re.value_char r1) as Hr1.
  destruct (Str.span Re.value_char r1) as [value r2]. cbn [fst snd] in Hvalue, Hr1.
  destruct (bracket_group_prefix r2) as [post Hpost].
  intros H. injection H as <- <-.
  exists c, key, value, (Re.bracket_group r2), post.
  cbn [Str.all] in Hkey. apply andb_prop in Hkey as [_ Hkey].
  repeat split; try assumption.
  - rewrite Hsplit, Hr1. rewrite Hpost at 1.
    cbn [append]. f_equal. rewrite append_assoc. cbn [append].
    now rewrite append_assoc.
  - apply bracket_group_shape.
Qed.

Lemma findall_go_at {A : Type} (match_at : string -> option (A * nat)) (s : string) :
  forall skip x,
    In x (Re.findall_go match_at skip s) ->
    exists pre suffix n, s = pre ++ suffix /\ match_at suffix = Some (x, n).
Proof.
  induction s as [|c s IH]; intros skip x; simpl; [contradiction|].
  assert (Hrest : forall k, In x (Re.findall_go match_at k s) ->
            exists pre suffix n,
              String c s = pre ++ suffix /\ match_at suffix = Some (x, n)).
  { intros k Hin. destruct (IH k x Hin) as (pre & suffix & n & -> & Hm).
    now exists (String c pre), suffix, n. }
  destruct skip as [|k]; [|apply Hrest].
  destruct (match_at (String c s)) as [[groups len]|] eqn:Hm; [|apply Hrest].
  intros [<- | Hin]; [|eapply Hrest; eassumption].
  now exists "", (String c s), len.
Qed.

Lemma mem_app (c : ascii) (a b : string) :
  Str.mem c (a ++ b) = Str.mem c a || Str.mem c b.
Proof.
  induction a as [|d a IH]; cbn [append Str.mem]; [reflexivity|].
  now rewrite IH, orb_assoc.
Qed.

Lemma contains_char (c : ascii) (s : string) :
  Str.contains (String c "") s = Str.mem c s.
Proof.
  induction s as [|d s IH]; cbn [Str.contains Str.prefix Str.mem]; [reflexivity|].
  rewrite IH. destruct s; now rewrite andb_true_r.
Qed.

(** X9. The tokenizer invents nothing: each token is a piece of the
    attribute string, and it is a key that starts with a word character
    and goes on with word characters and hyphens, an equals sign, and the
    rest. *)
Theorem tokens_are_pieces_of_the_string (attr_str t : string) :
  In t (split_attributes_improved attr_str) ->
  (exists pre post, attr_str = pre ++ t ++ post)
  /\ exists key rest,
       t = key ++ "=" ++ rest /\ well_formed_key key = true.
Proof.
  intros Hin.
  apply findall_go_at in Hin as (pre & suffix & n & -> & Hm).
  apply attribute_pattern_parts in Hm
    as (c & key & value & bracket & post & Ht & -> & _ & Hc & Hkey & _).
  split.
  - now exists pre, post.
  - exists (String c key), (value ++ bracket). split; [exact Ht|].
    simpl. now rewrite Hc, Hkey.
Qed.

Lemma tokens_are_pieces_of_the_string_witness :
  (exists pre post, "id=x  class=[a b] y" = pre ++ "class=[a b]" ++ post)
  /\ exists key rest,
       "class=[a b]" = key ++ "=" ++ rest /\ well_formed_key key = true.
Proof.
  apply (tokens_are_pieces_of_the_string "id=x  class=[a b] y" "class=[a b]").
  vm_compute. auto.
Defined.

Lemma no_equals_no_token (attr_str : string) :
  Str.contains "=" attr_str = false -> split_attributes_improved attr_str = [].
Proof.
  intros Hno.
  destruct (split_attributes_improved attr_str) as [|t ts] eqn:Htokens;
    [reflexivity | exfalso].
  assert (Hin : In t (split_attributes_improved attr_str))
    by (rewrite Htokens; now left).
  apply findall_go_at in Hin as (pre & suffix & n & -> & Hm).
  apply attribute_pattern_parts in Hm
    as (c & key & value & bracket & post & -> & -> & _).
  rewrite contains_char in Hno.
  assert (Hyes : Str.mem "=" (String "=" (value ++ bracket)) = true) by reflexivity.
  change (String c key ++ "=" ++ value ++ bracket)
    with (String c key ++ String "=" (value ++ bracket)) in Hno.
  rewrite !mem_app, Hyes in Hno.
  rewrite orb_true_r in Hno. cbn [orb] in Hno.
  rewrite orb_true_r in Hno. discriminate.
Qed.

(** X10. An attribute string without an equals sign has no token, and
    its parse is the empty mapping: words without [=] are ignored, and so
    is an empty attribute string. *)
Theorem parse_attributes_without_equals (attr_str : string) :
  Str.contains "=" attr_str = false ->
  split_attributes_improved attr_str = []
  /\ parse_attributes attr_str = [].
Proof.
  intros Hno. pose proof (no_equals_no_token attr_str Hno) as Htokens.
  split; [exact Htokens|].
  unfold parse_attributes. now rewrite Htokens.
Qed.

Lemma parse_attributes_without_equals_witness :
  split_attributes_improved "disabled hidden [x]" = []
  /\ parse_attributes "disabled hidden [x]" = [].
Proof.
  apply (parse_attributes_without_equals "disabled hidden [x]"). reflexivity.
Defined.

(** ** What the parser stores *)

Lemma lstrip_head (p : ascii -> bool) (s : string) :
  Str.lstrip_by p s = ""
  \/ exists c r, Str.lstrip_by p s = String c r /\ p c = false.
Proof.
  induction s as [|c s IH]; simpl; [now left|].
  destruct (p c) eqn:Hc; [exact IH|]. right. now exists c, s.
Qed.

Lemma rstrip_idempotent (p : ascii -> bool) (s : string) :
  Str.rstrip_by p (Str.rstrip_by p s) = Str.rstrip_by p s.
Proof.
  induction s as [|c s IH]; simpl; [reflexivity|].
  destruct (Str.rstrip_by p s) as [|d r] eqn:Hr.
  - destruct (p c) eqn:Hc; simpl; [reflexivity | now rewrite Hc].
  - cbn [Str.rstrip_by]. cbn [Str.rstrip_by] in IH.
    now rewrite IH.
Qed.

Lemma rstrip_keeps_head (p : ascii -> bool) (c : ascii) (s : string) :
  p c = false -> exists r, Str.rstrip_by p (String c s) = String c r.
Proof.
  intros Hc. simpl. destruct (Str.rstrip_by p s) as [|d r].
  - rewrite Hc. now exists "".
  - now exists (String d r).
Qed.

Lemma strip_idempotent (p : ascii -> bool) (s : string) :
  Str.strip_by p (Str.strip_by p s) = Str.strip_by p s.
Proof.
  unfold Str.strip_by.
  destruct (lstrip_head p s) as [-> | (c & r & -> & Hc)]; [reflexivity|].
  destruct (rstrip_keeps_head p c r Hc) as [r' Hr']. rewrite Hr'.
  cbn [Str.lstrip_by]. rewrite Hc. rewrite <- Hr'. apply rstrip_idempotent.
Qed.

Lemma set_in {V : Type} (d : dict V) (key : string) (value : V) (k : string) (v : V) :
  In (k, v) (Dict.set d key value) -> In (k, v) d \/ (k = key /\ v = value).
Proof.
  induction d as [|[k0 v0] d IH]; simpl.
  - intros [H | []]. injection H as <- <-. now right.
  - destruct (String.eqb_spec k0 key) as [-> | Hne]; simpl.
    + intros [H | H]; [injection H as <- <-; now right | left; now right].
    + intros [H | H]; [left; now left|].
      destruct (IH H) as [H' | H']; [left; now right | now right].
Qed.

Lemma word_key_well_formed (k : string) :
  k <> "" -> Str.all Char.is_word k = true -> well_formed_key k = true.
Proof.
  destruct k as [|c k]; [congruence | intros _]. simpl.
  intros H. apply andb_prop in H as [-> Hk]. simpl.
  apply (all_impl Char.is_word); [|exact Hk].
  intros d Hd. unfold key_char. now rewrite Hd.
Qed.

Lemma pair_pattern_key (s g0 g1 g2 g3 : string) (n : nat) :
  Re.pair_pattern s = Some ((g0, g1, g2, g3), n) ->
  (g0 <> "" /\ Str.all Char.is_word g0 = true)
  \/ (g0 = "" /\ g2 <> "" /\ Str.all Char.is_word g2 = true).
Proof.
  unfold Re.pair_pattern.
  pose proof (span_all Char.is_word s) as Hkey.
  destruct (Str.span Char.is_word s) as [key r]. simpl fst in Hkey.
  destruct key as [|k key]; [discriminate|].
  destruct r as [|d r1]; [discriminate|].
  destruct d as [[] [] [] [] [] [] [] []]; try discriminate.
  destruct (match r1 with
            | String "[" r2 =>
                let '(body, r3) := Str.span Re.list_char r2 in
                match r3 with
                | String "]" _ =>
                    Some ((String k key, body, "", ""),
                          String.length (String k key) + 2 + String.length body + 1)
                | _ => None
                end
            | _ => None
            end) as [[[[[h0 h1] h2] h3] len]|] eqn:Hfirst.
  - intros H. injection H as <- <- <- <- _.
    destruct r1 as [|e r2]; [discriminate|].
    destruct e as [[] [] [] [] [] [] [] []]; try discriminate.
    destruct (Str.span Re.list_char r2) as [body r3].
    destruct r3 as [|f r3]; [discriminate|].
    destruct f as [[] [] [] [] [] [] [] []]; try discriminate.
    injection Hfirst as <- _ <- _ _.
    left. split; [discriminate | exact Hkey].
  - destruct (Str.span Re.not_space r1) as [value r'].
    destruct value; [discriminate|].
    intros H. injection H as <- _ <- _ _.
    right. split; [reflexivity|]. split; [discriminate | exact Hkey].
Qed.

Lemma plain_token_parts (attr_str t : string) :
  In t (split_attributes_improved attr_str) ->
  Str.contains "[" t = false ->
  exists key value,
    t = key ++ "=" ++ value
    /\ well_formed_key key = true
    /\ Str.mem "=" key = false.
Proof.
  intros Hin Hplain.
  apply findall_go_at in Hin as (pre & suffix & n & _ & Hm).
  apply attribute_pattern_parts in Hm
    as (c & key & value & bracket & post & -> & _ & _ & Hc & Hkey & _ & [-> | [b ->]]).
  - exists (String c key), value. rewrite append_nil_r.
    split; [reflexivity|]. split; [simpl; now rewrite Hc, Hkey|].
    apply all_key_no_equals. simpl. unfold key_char at 1. now rewrite Hc, Hkey.
  - exfalso.
    replace (String c key ++ "=" ++ value ++ String "[" b)
      with ((String c key ++ "=" ++ value) ++ String "[" b) in Hplain
      by now rewrite !append_assoc.
    rewrite contains_bracket in Hplain. discriminate.
Qed.

Lemma stored_well_set (d : dict AttrValue) (key : string) (value : AttrValue) :
  stored_well d ->
  well_formed_key key = true -> trimmed_value value = true ->
  stored_well (Dict.set d key value).
Proof.
  intros Hd Hk Hv k v Hin.
  apply set_in in Hin as [Hin | [-> ->]]; [now apply Hd | now split].
Qed.

Lemma stored_well_pairs (pairs : list (string * string * string * string)) :
  (forall pair, In pair pairs -> exists s n, Re.pair_pattern s = Some (pair, n)) ->
  forall d, stored_well d -> stored_well (fold_left store_pair pairs d).
Proof.
  induction pairs as [|[[[g0 g1] g2] g3] pairs IH]; intros Hfrom d Hd; simpl;
    [exact Hd|].
  apply IH; [intros pair Hpair; apply Hfrom; now right|].
  destruct (Hfrom (g0, g1, g2, g3) (or_introl eq_refl)) as (s & n & Hm).
  apply pair_pattern_key in Hm as [[Hne Hw] | (-> & Hne & Hw)].
  - destruct g0 as [|c g0]; [congruence|].
    apply stored_well_set; [exact Hd | now apply word_key_well_formed|].
    simpl. apply forallb_forall. intros i Hi.
    apply in_map_iff in Hi as (x & <- & _).
    apply String.eqb_eq. apply strip_idempotent.
  - apply stored_well_set; [exact Hd | now apply word_key_well_formed|].
    simpl. apply String.eqb_eq. apply strip_idempotent.
Qed.

Lemma stored_well_attribute (attr_str t : string) (d : dict AttrValue) :
  In t (split_attributes_improved attr_str) ->
  stored_well d -> stored_well (store_attribute attr_str d t).
Proof.
  intros Hin Hd.
  destruct (Str.contains "[" t) eqn:Hplain.
  - unfold store_attribute. rewrite Hplain.
    apply stored_well_pairs; [|exact Hd].
    intros pair Hpair. eapply findall_go_in. exact Hpair.
  - destruct (plain_token_parts _ _ Hin Hplain) as (key & value & -> & Hkey & Heq).
    rewrite store_plain_token by assumption.
    apply stored_well_set; [exact Hd | exact Hkey|].
    simpl. apply String.eqb_eq. apply strip_idempotent.
Qed.

(** X11. Whatever the attribute string, the mapping the parser returns
    is clean: every key starts with a word character and holds only word
    characters and hyphens (no space, no equals sign, no bracket, never
    empty), every scalar value has no space or quote left at either end,
    and every item of a list no space, quote or bracket. *)
Theorem parse_attributes_stores_clean_entries (attr_str k : string) (v : AttrValue) :
  In (k, v) (parse_attributes attr_str) ->
  well_formed_key k = true /\ trimmed_value v = true.
Proof.
  revert k v. change (stored_well (parse_attributes attr_str)).
  unfold parse_attributes.
  assert (Hgen : forall tokens d,
             (forall t, In t tokens -> In t (split_attributes_improved attr_str)) ->
             stored_well d ->
             stored_well (fold_left (store_attribute attr_str) tokens d)).
  { induction tokens as [|t tokens IH]; intros d Hsub Hd; simpl; [exact Hd|].
    apply IH; [intros t' Ht'; apply Hsub; now right|].
    apply stored_well_attribute; [apply Hsub; now left | exact Hd]. }
  apply Hgen; [auto|]. intros k v [].
Qed.

Lemma parse_attributes_stores_clean_entries_witness :
  well_formed_key "charset" = true
  /\ trimmed_value (Multi ["utf-8"; "latin1"]) = true.
Proof.
  apply (parse_attributes_stores_clean_entries
           "accept-charset=[ 'utf-8', 'latin1' ]" "charset"
           (Multi ["utf-8"; "latin1"])).
  vm_compute. auto.
Defined.

Lemma token_of_plain_string (attr_str t : string) :
  Str.contains "[" attr_str = false ->
  In t (split_attributes_improved attr_str) ->
  Str.contains "[" t = false.
Proof.
  intros Hplain Hin.
  apply findall_go_at in Hin as (pre & suffix & n & -> & Hm).
  apply attribute_pattern_parts in Hm
    as (c & key & value & bracket & post & _ & -> & _).
  rewrite contains_char in *. rewrite !mem_app in Hplain.
  apply orb_false_elim in Hplain as [_ Hplain].
  now apply orb_false_elim in Hplain as [Hplain _].
Qed.

(** Tokens with another key leave the entry of [key] alone. *)
Lemma other_tokens_keep_entry (attr_str key : string) (tokens : list string) :
  Str.contains "[" attr_str = false \/ Str.mem "-" key = true ->
  (forall t, In t tokens -> In t (split_attributes_improved attr_str)) ->
  (forall value, ~ In (key ++ "=" ++ value) tokens) ->
  forall d,
    Dict.get (fold_left (store_attribute attr_str) tokens d) key = Dict.get d key.
Proof.
  intros Hcase.
  induction tokens as [|t tokens IH]; intros Hsub Hother d; simpl; [reflexivity|].
  rewrite IH;
    [| intros t' Ht'; apply Hsub; now right
     | intros value Hv; apply (Hother value); now right].
  assert (Hin : In t (split_attributes_improved attr_str)) by (apply Hsub; now left).
  destruct (Str.contains "[" t) eqn:Hplain.
  - destruct Hcase as [Hnone | Hhyphen].
    + rewrite (token_of_plain_string _ _ Hnone Hin) in Hplain. discriminate.
    + unfold store_attribute. rewrite Hplain.
      apply store_pairs_other; [exact Hhyphen|].
      intros pair Hpair. eapply findall_go_in. exact Hpair.
  - destruct (plain_token_parts _ _ Hin Hplain) as (key' & value' & -> & _ & Heq).
    rewrite store_plain_token by assumption.
    apply get_set_other. intros ->.
    apply (Hother value'). now left.
Qed.

(** X12. Last write wins. When [key=value] is the last token with that
    key, and the parser does not take it for a bracketed list, the entry of
    the key is that value, stripped of spaces and quotes, whatever earlier
    tokens stored under the key. This holds when the attribute string has
    no bracket at all, and for a hyphenated key in any attribute string. *)
Theorem parse_attributes_last_write_wins
    (attr_str : string) (before : list string) (key value : string)
    (after : list string) :
  split_attributes_improved attr_str
  = (before ++ (key ++ "=" ++ value)%string :: after)%list ->
  Str.mem "=" key = false ->
  Str.contains "[" (key ++ "=" ++ value) = false ->
  Str.contains "[" attr_str = false \/ Str.mem "-" key = true ->
  (forall value', ~ In (key ++ "=" ++ value') after) ->
  Dict.get (parse_attributes attr_str) key
  = Some (Scalar (Str.strip_chars quote_chars value)).
Proof.
  intros Htokens Hkey Hplain Hcase Hlast.
  assert (Hin : In (key ++ "=" ++ value) (split_attributes_improved attr_str)).
  { rewrite Htokens. apply in_or_app. right. now left. }
  assert (Hsub : forall t, In t after -> In t (split_attributes_improved attr_str)).
  { intros t Ht. rewrite Htokens. apply in_or_app. right. now right. }
  pose proof (f_equal (fun l => fold_left (store_attribute attr_str) l []) Htokens)
    as Hfold.
  cbv beta in Hfold. rewrite fold_left_app in Hfold. cbn [fold_left] in Hfold.
  unfold parse_attributes. rewrite Hfold.
  rewrite (other_tokens_keep_entry attr_str key after Hcase Hsub Hlast).
  rewrite store_plain_token by assumption.
  apply get_set_same.
Qed.

Lemma parse_attributes_last_write_wins_witness :
  Dict.get (parse_attributes "id=a lang=zh id='b'") "id"
  = Some (Scalar (Str.strip_chars quote_chars "'b'")).
Proof.
  apply (parse_attributes_last_write_wins "id=a lang=zh id='b'"
           ["id=a"; "lang=zh"] "id" "'b'" []).
  - reflexivity.
  - reflexivity.
  - reflexivity.
  - left. reflexivity.
  - intros value' [].
Defined.

(** ** Reverse locator, continued *)

Lemma find_found (tag : string) (wanted : dict AttrValue) (node : PageElement) :
  forall r,
    find tag wanted node = Some r ->
    In r (tags_below node) /\ search_tag tag wanted r = true.
Proof.
  induction node as [n a contents IH | text] using PageElement_nested_ind;
    intros r; [|discriminate].
  cbn [find tags_below].
  induction contents as [|child rest IHrest]; [discriminate|].
  inversion IH as [|? ? Hchild Hrest]; subst.
  cbn [flat_map].
  destruct (search_tag tag wanted child) eqn:Hs.
  - intros H. injection H as <-.
    destruct child as [cn ca cc | t]; [|discriminate].
    split; [now left | exact Hs].
  - destruct (find tag wanted child) as [found|] eqn:Hf.
    + intros H. injection H as <-.
      destruct (Hchild found eq_refl) as [Hin Hok].
      destruct child as [cn ca cc | t]; [|contradiction].
      split; [right; apply in_or_app; now left | exact Hok].
    + intros H. destruct (IHrest Hrest H) as [Hin Hok].
      split; [apply in_or_app; now right | exact Hok].
Qed.

Lemma tags_below_transitive (c : PageElement) :
  forall a b, In a (tags_below b) -> In b (tags_below c) -> In a (tags_below c).
Proof.
  induction c as [n at_ contents IH | text] using PageElement_nested_ind;
    intros a b Ha Hb; [|contradiction].
  cbn [tags_below] in *. apply in_flat_map in Hb as (child & Hchild & Hb).
  apply in_flat_map. exists child. split; [exact Hchild|].
  rewrite Forall_forall in IH. specialize (IH child Hchild).
  destruct child as [cn ca cc | t]; [|contradiction].
  destruct Hb as [<- | Hb]; [now right|].
  right. exact (IH a b Ha Hb).
Qed.

Lemma locate_step_result (cur : PageElement) (part : string) :
  locate_step cur part = cur
  \/ (In (locate_step cur part) (tags_below cur)
      /\ search_tag (fst (segment_query part)) (snd (segment_query part))
           (locate_step cur part) = true).
Proof.
  unfold locate_step.
  destruct (Str.contains "[document]" part); [now left|].
  destruct (segment_query part) as [tag wanted]. cbn [fst snd].
  destruct (find tag wanted cur) as [found|] eqn:Hf; [|now left].
  right. now apply find_found.
Qed.

Lemma locate_result (parts : list string) :
  forall cur,
    locate cur parts = cur
    \/ (In (locate cur parts) (tags_below cur)
        /\ exists part,
             In part parts
             /\ search_tag (fst (segment_query part)) (snd (segment_query part))
                  (locate cur parts) = true).
Proof.
  unfold locate.
  induction parts as [|part parts IH]; intros cur; cbn [fold_left]; [now left|].
  destruct (IH (locate_step cur part)) as [Hsame | (Hin & p & Hp & Hok)].
  - rewrite Hsame.
    destruct (locate_step_result cur part) as [-> | [Hin Hok]]; [now left|].
    right. split; [exact Hin|]. exists part. split; [now left | exact Hok].
  - right. split.
    + destruct (locate_step_result cur part) as [Heq | [Hstep _]].
      * rewrite Heq in Hin |- *. exact Hin.
      * eapply tags_below_transitive; eassumption.
    + exists p. split; [now right | exact Hok].
Qed.

(** X13. The reverse locator never fails and never leaves the document:
    for every document and every path string it returns the document
    object itself or a tag below it, and a tag it returns has the tag name
    and the attributes that one of the segments of the path asks for. *)
Theorem find_element_by_path_stays_in_document (soup : PageElement) (path : string) :
  find_element_by_path soup path = soup
  \/ (In (find_element_by_path soup path) (tags_below soup)
      /\ exists part,
           In part (Str.split " -> " path)
           /\ tag_name (find_element_by_path soup path) = fst (segment_query part)
           /\ search_tag (fst (segment_query part)) (snd (segment_query part))
                (find_element_by_path soup path) = true).
Proof.
  unfold find_element_by_path.
  destruct (locate_result (Str.split " -> " path) soup)
    as [Hsame | (Hin & part & Hpart & Hok)]; [now left|].
  right. split; [exact Hin|]. exists part. split; [exact Hpart|].
  split; [|exact Hok].
  destruct (locate soup (Str.split " -> " path)) as [n a cs | t];
    [|discriminate].
  cbn [search_tag tag_name] in *. apply andb_prop in Hok as [Hn _].
  apply String.eqb_eq in Hn. now symmetry.
Qed.

(** ** From a descriptor back to the attributes *)

Lemma key_char_cases (c : ascii) :
  key_char c = true -> Char.is_word c = false -> c = "-"%char.
Proof.
  unfold key_char. intros H Hw. rewrite Hw in H. simpl in H.
  now apply Ascii.eqb_eq in H.
Qed.

Lemma hyphenated_simple (k r : string) :
  Str.all key_char k = true ->
  hyphens_followed k = true ->
  Re.hyphenated (k ++ String "=" r) = (k, String "=" r).
Proof.
  induction k as [|c k IH]; intros Hkey Hhy; [reflexivity|].
  cbn [Str.all] in Hkey. apply andb_prop in Hkey as [Hc Hkey].
  cbn [hyphens_followed] in Hhy. apply andb_prop in Hhy as [Hnext Hhy].
  cbn [append Re.hyphenated].
  destruct (Char.is_word c) eqn:Hw.
  - now rewrite (IH Hkey Hhy).
  - rewrite (key_char_cases c Hc Hw) in *.
    change (Ascii.eqb "-" "-") with true in *. cbv iota in *.
    destruct k as [|d k]; [discriminate|].
    cbn [append]. rewrite Hnext.
    change (String d (k ++ String "=" r)) with (String d k ++ String "=" r).
    now rewrite (IH Hkey Hhy).
Qed.

Lemma span_whole (p : ascii -> bool) (s : string) :
  Str.all p s = true -> Str.span p s = (s, "").
Proof.
  induction s as [|c s IH]; simpl; [reflexivity|].
  intros H. apply andb_prop in H as [Hc Hs]. now rewrite Hc, (IH Hs).
Qed.

Lemma well_formed_key_chars (k : string) :
  well_formed_key k = true ->
  exists c k', k = String c k' /\ Char.is_word c = true
               /\ Str.all key_char k = true.
Proof.
  destruct k as [|c k']; [discriminate|]. simpl.
  intros H. apply andb_prop in H as [Hc Hk]. exists c, k'.
  split; [reflexivity|]. split; [exact Hc|].
  unfold key_char at 1. now rewrite Hc, Hk.
Qed.

(** A simple token, alone or followed by a space, is what the pattern
    matches. *)
Lemma pattern_on_simple_token (k s rest : string) :
  well_formed_key k = true ->
  hyphens_followed k = true ->
  Str.all Re.value_char s = true ->
  rest = "" \/ (exists r, rest = String " " r) ->
  Re.attribute_pattern ((k ++ "=" ++ s) ++ rest)
  = Some (k ++ "=" ++ s, String.length (k ++ "=" ++ s)).
Proof.
  intros Hwf Hhy Hs Hrest.
  destruct (well_formed_key_chars k Hwf) as (c & k' & -> & Hc & Hkey).
  replace ((String c k' ++ "=" ++ s) ++ rest)
    with (String c k' ++ String "=" (s ++ rest))
    by (cbn [append]; now rewrite !append_assoc).
  unfold Re.attribute_pattern.
  change (String c k' ++ String "=" (s ++ rest))
    with (String c (k' ++ String "=" (s ++ rest))) at 1.
  cbv iota. rewrite Hc.
  rewrite (hyphenated_simple (String c k') (s ++ rest) Hkey Hhy).
  assert (Hspan : Str.span Re.value_char (s ++ rest) = (s, rest)).
  { destruct Hrest as [-> | [r ->]].
    - rewrite append_nil_r. now apply span_whole.
    - now apply span_stops. }
  rewrite Hspan.
  assert (Hbracket : Re.bracket_group rest = "").
  { destruct Hrest as [-> | [r ->]]; reflexivity. }
  rewrite Hbracket. cbn [append]. now rewrite append_nil_r.
Qed.

Lemma findall_go_skip {A : Type} (match_at : string -> option (A * nat))
    (a r : string) :
  Re.findall_go match_at (String.length a) (a ++ r) = Re.findall_go match_at 0 r.
Proof. induction a as [|c a IH]; simpl; [reflexivity | exact IH]. Qed.

Lemma findall_first {A : Type} (match_at : string -> option (A * nat))
    (a r : string) (groups : A) :
  a <> "" ->
  match_at (a ++ r) = Some (groups, String.length a) ->
  Re.findall match_at (a ++ r) = groups :: Re.findall match_at r.
Proof.
  intros Ha Hm. unfold Re.findall.
  destruct a as [|c a]; [congruence|].
  cbn [append Re.findall_go]. cbn [append] in Hm. rewrite Hm.
  cbn [String.length]. rewrite Nat.sub_1_r. cbn [Nat.pred].
  now rewrite findall_go_skip.
Qed.

Lemma simple_attribute_parts (a : string * AttrValue) :
  simple_attribute a = true ->
  exists k s,
    a = (k, Scalar s)
    /\ well_formed_key k = true /\ hyphens_followed k = true
    /\ Str.all Re.value_char s = true
    /\ Str.strip_chars quote_chars s = s.
Proof.
  destruct a as [k [s | l]]; [|discriminate]. simpl.
  intros H. apply andb_prop in H as [H H4]. apply andb_prop in H as [H H3].
  apply andb_prop in H as [H1 H2]. apply String.eqb_eq in H4.
  now exists k, s.
Qed.

(** The tokenizer finds the attributes of a descriptor again, one token
    for each. *)
Lemma tokens_of_descriptor (items : dict AttrValue) :
  forallb simple_attribute items = true ->
  split_attributes_improved (Str.join " " (map attribute_text items))
  = map attribute_text items.
Proof.
  unfold split_attributes_improved.
  induction items as [|a items IH]; intros Hall; [reflexivity|].
  cbn [forallb] in Hall. apply andb_prop in Hall as [Ha Hall].
  destruct (simple_attribute_parts a Ha) as (k & s & -> & Hwf & Hhy & Hs & _).
  assert (Hne : k ++ "=" ++ s <> "").
  { destruct k; [discriminate Hwf | discriminate]. }
  destruct items as [|b items].
  - cbn [map Str.join attribute_text str_value].
    rewrite <- (append_nil_r (k ++ "=" ++ s)) at 1.
    rewrite (findall_first Re.attribute_pattern (k ++ "=" ++ s) "" (k ++ "=" ++ s));
      [reflexivity | exact Hne|].
    apply pattern_on_simple_token; auto.
  - specialize (IH Hall).
    change (Str.join " " (map attribute_text ((k, Scalar s) :: b :: items)))
      with ((k ++ "=" ++ s) ++ String " " (Str.join " " (map attribute_text (b :: items)))).
    rewrite (findall_first Re.attribute_pattern (k ++ "=" ++ s) _ (k ++ "=" ++ s));
      [| exact Hne |].
    + cbn [map attribute_text str_value]. f_equal.
      unfold Re.findall. cbn [Re.findall_go].
      change (Re.attribute_pattern
                (String " " (Str.join " " (map attribute_text (b :: items)))))
        with (@None (string * nat)).
      exact IH.
    + apply pattern_on_simple_token; eauto.
Qed.

Lemma all_not_mem (p : ascii -> bool) (x : ascii) (s : string) :
  (forall c, p c = true -> Ascii.eqb x c = false) ->
  Str.all p s = true -> Str.mem x s = false.
Proof.
  intros Hp. induction s as [|c s IH]; cbn [Str.all Str.mem]; [reflexivity|].
  intros H. apply andb_prop in H as [Hc Hs]. now rewrite (Hp c Hc), IH.
Qed.

Lemma key_char_not_bracket (c : ascii) :
  key_char c = true -> Ascii.eqb "[" c = false.
Proof. by_cases c. Qed.

Lemma value_char_not_bracket (c : ascii) :
  Re.value_char c = true -> Ascii.eqb "[" c = false.
Proof. by_cases c. Qed.

Lemma simple_token_plain (k s : string) :
  Str.all key_char k = true ->
  Str.all Re.value_char s = true ->
  Str.contains "[" (k ++ "=" ++ s) = false.
Proof.
  intros Hk Hs. rewrite contains_char.
  change (k ++ "=" ++ s) with (k ++ String "=" s).
  rewrite mem_app. cbn [Str.mem].
  rewrite (all_not_mem key_char "[" k key_char_not_bracket Hk).
  rewrite (all_not_mem Re.value_char "[" s value_char_not_bracket Hs).
  reflexivity.
Qed.

Lemma set_new {V : Type} (d : dict V) (key : string) (value : V) :
  Dict.get d key = None -> Dict.set d key value = (d ++ [(key, value)])%list.
Proof.
  induction d as [|[k v] d IH]; simpl; [reflexivity|].
  destruct (String.eqb k key); [discriminate|].
  intros H. now rewrite (IH H).
Qed.

Lemma get_after_new {V : Type} (d : dict V) (key other : string) (value : V) :
  Dict.get d other = None -> key <> other ->
  Dict.get (d ++ [(key, value)])%list other = None.
Proof.
  intros Hd Hne. induction d as [|[k v] d IH]; simpl.
  - apply String.eqb_neq in Hne. now rewrite Hne.
  - simpl in Hd. destruct (String.eqb k other); [discriminate | auto].
Qed.

(** Storing simple attributes with distinct, new keys appends them. *)
Lemma store_simple_attributes (attr_str : string) (items : dict AttrValue) :
  forall d,
    (forall a, In a items ->
       simple_attribute a = true
       /\ In (attribute_text a) (split_attributes_improved attr_str)) ->
    NoDup (map fst items) ->
    (forall a, In a items -> Dict.get d (fst a) = None) ->
    fold_left (store_attribute attr_str) (map attribute_text items) d
    = (d ++ items)%list.
Proof.
  induction items as [|a items IH]; intros d Hall Hnodup Hnew; simpl.
  - now rewrite app_nil_r.
  - destruct (Hall a (or_introl eq_refl)) as [Ha Hin].
    destruct (simple_attribute_parts a Ha) as (k & s & -> & Hwf & _ & Hs & Hstrip).
    destruct (well_formed_key_chars k Hwf) as (c & k' & Hk & _ & Hkey).
    cbn [attribute_text str_value] in Hin |- *.
    rewrite store_plain_token;
      [| exact Hin | now apply simple_token_plain | now apply all_key_no_equals].
    rewrite Hstrip.
    rewrite (set_new d k (Scalar s) (Hnew (k, Scalar s) (or_introl eq_refl))).
    inversion Hnodup as [|? ? Hnotin Hrest]; subst.
    rewrite IH.
    + now rewrite <- app_assoc.
    + intros b Hb. apply Hall. now right.
    + exact Hrest.
    + intros b Hb. apply get_after_new.
      * apply Hnew. now right.
      * intros Heq. apply Hnotin. simpl. rewrite Heq. now apply in_map.
Qed.

Lemma parse_attributes_round_trip_lemma (items : dict AttrValue) :
  NoDup (map fst items) ->
  forallb simple_attribute items = true ->
  parse_attributes (Str.join " " (map attribute_text items)) = items.
Proof.
  intros Hnodup Hall. unfold parse_attributes.
  rewrite (tokens_of_descriptor items Hall) at 1.
  rewrite store_simple_attributes; [reflexivity | | exact Hnodup | reflexivity].
  intros a Ha. rewrite forallb_forall in Hall. split; [now apply Hall|].
  rewrite (tokens_of_descriptor items).
  - now apply in_map.
  - apply forallb_forall. exact Hall.
Qed.

(** X14. Round trip of simple attributes. When the attributes of a tag
    have distinct keys and are simple (scalar values without white space
    or opening bracket, not starting or ending with a quote; keys of word
    characters with inner hyphens), parsing the text that
    [element_to_string] writes for them gives the attributes back, in
    their order and with their values. *)
Theorem parse_attributes_round_trip (items : dict AttrValue) :
  NoDup (map fst items) ->
  forallb simple_attribute items = true ->
  parse_attributes (Str.join " " (map attribute_text items)) = items.
Proof. exact (parse_attributes_round_trip_lemma items). Qed.

Lemma parse_attributes_round_trip_witness :
  parse_attributes
    (Str.join " "
       (map attribute_text
          [("lang", Scalar "zh"); ("data-v-52866abc", Scalar ""); ("id", Scalar "a=b")]))
  = [("lang", Scalar "zh"); ("data-v-52866abc", Scalar ""); ("id", Scalar "a=b")].
Proof.
  apply (parse_attributes_round_trip
           [("lang", Scalar "zh"); ("data-v-52866abc", Scalar ""); ("id", Scalar "a=b")]).
  - repeat constructor; simpl; intuition discriminate.
  - reflexivity.
Defined.

Lemma all_join (p : ascii -> bool) (l : list string) :
  p " "%char = true ->
  (forall x, In x l -> Str.all p x = true) ->
  Str.all p (Str.join " " l) = true.
Proof.
  intros Hsp. induction l as [|x l IH]; intros Hall; [reflexivity|].
  destruct l as [|y l]; [apply Hall; now left|].
  change (Str.join " " (x :: y :: l)) with (x ++ String " " (Str.join " " (y :: l))).
  rewrite all_app. cbn [Str.all].
  rewrite (Hall x (or_introl eq_refl)), Hsp, IH; [reflexivity|].
  intros z Hz. apply Hall. now right.
Qed.

Lemma simple_token_chars (p : ascii -> bool) (k s : string) :
  (forall c, key_char c = true -> p c = true) ->
  (forall c, Re.value_char c = true -> p c = true) ->
  p "="%char = true ->
  Str.all key_char k = true -> Str.all Re.value_char s = true ->
  Str.all p (k ++ "=" ++ s) = true.
Proof.
  intros Hk Hv He Hkey Hs.
  change (k ++ "=" ++ s) with (k ++ String "=" s).
  rewrite all_app. cbn [Str.all].
  now rewrite (all_impl key_char p k Hk Hkey), He, (all_impl Re.value_char p s Hv Hs).
Qed.

Lemma key_char_not_newline (c : ascii) :
  key_char c = true -> negb (Ascii.eqb c "010") = true.
Proof. by_cases c. Qed.

Lemma value_char_not_newline (c : ascii) :
  Re.value_char c = true -> negb (Ascii.eqb c "010") = true.
Proof. by_cases c. Qed.

Lemma rstrip_after (p : ascii -> bool) (b t : string) :
  t <> "" -> Str.rstrip_by p t = t -> Str.rstrip_by p (b ++ t) = b ++ t.
Proof.
  intros Hne Ht. induction b as [|c b IH]; [exact Ht|].
  cbn [append Str.rstrip_by]. rewrite IH.
  destruct (b ++ t) eqn:Hbt; [|reflexivity].
  apply append_empty in Hbt as Hb. subst b. simpl in Hbt. congruence.
Qed.

(** The text of simple attributes has no white space at either end. *)
Lemma strip_attributes_text (items : dict AttrValue) :
  forallb simple_attribute items = true ->
  Str.strip (String " " (Str.join " " (map attribute_text items)))
  = Str.join " " (map attribute_text items).
Proof.
  intros Hall. unfold Str.strip, Str.strip_by.
  cbn [Str.lstrip_by]. change (Char.is_space " ") with true. cbv iota.
  destruct items as [|a items]; [reflexivity|].
  assert (Htok : forall b, In b (a :: items) ->
            exists c t, attribute_text b = String c t
                        /\ Char.is_space c = false
                        /\ Str.all Re.not_space (attribute_text b) = true).
  { intros b Hb. rewrite forallb_forall in Hall.
    destruct (simple_attribute_parts b (Hall b Hb)) as (k & s & -> & Hwf & _ & Hs & _).
    destruct (well_formed_key_chars k Hwf) as (c & k' & -> & Hc & Hkey).
    exists c, (k' ++ "=" ++ s). split; [reflexivity|]. split.
    - apply key_char_not_space. unfold key_char. now rewrite Hc.
    - cbn [attribute_text str_value].
      apply simple_token_chars; try assumption; try reflexivity.
      + intros d Hd. unfold Re.not_space. now rewrite key_char_not_space.
      + intros d Hd. unfold Re.not_space. now rewrite value_char_not_space. }
  assert (Hl : Str.lstrip_by Char.is_space
                 (Str.join " " (map attribute_text (a :: items)))
               = Str.join " " (map attribute_text (a :: items))).
  { destruct (Htok a (or_introl eq_refl)) as (c & t & Ha & Hc & _).
    cbn [map]. destruct (map attribute_text items) as [|y l];
      cbn [Str.join]; rewrite Ha; cbn [append Str.lstrip_by]; now rewrite Hc. }
  rewrite Hl.
  destruct (exists_last (l := a :: items)) as (front & z & Hz); [discriminate|].
  rewrite Hz, map_app. cbn [map].
  destruct (join_ends_with " " (map attribute_text front) (attribute_text z))
    as [before ->].
  assert (Hin : In z (a :: items)) by (rewrite Hz; apply in_or_app; right; now left).
  destruct (Htok z Hin) as (c & t & Hzt & _ & Hns).
  apply rstrip_after.
  - rewrite Hzt. discriminate.
  - now apply rstrip_unchanged.
Qed.

Lemma segment_query_of_descriptor (e : Element) :
  name e <> "" ->
  Str.all Char.is_word (name e) = true ->
  NoDup (map fst (attrs e)) ->
  forallb simple_attribute (attrs e) = true ->
  segment_query (element_to_string e) = (name e, attrs e).
Proof.
  intros Hne Hword Hnodup Hall.
  unfold segment_query.
  change (element_to_string e)
    with (name e ++ String " " (Str.join " " (map attribute_text (attrs e)))).
  unfold Re.tag_pattern.
  rewrite (span_stops Char.is_word (name e) " " _ Hword eq_refl).
  destruct (name e) as [|c n] eqn:Hname; [congruence|].
  rewrite span_whole.
  - cbn [fst]. rewrite (strip_attributes_text _ Hall).
    now rewrite (parse_attributes_round_trip_lemma (attrs e) Hnodup Hall).
  - cbn [Str.all]. change (negb (Ascii.eqb " " "010")) with true. cbn [andb].
    apply all_join; [reflexivity|].
    intros x Hx. apply in_map_iff in Hx as (a & <- & Ha).
    rewrite forallb_forall in Hall.
    destruct (simple_attribute_parts a (Hall a Ha)) as (k & s & -> & Hwf & _ & Hs & _).
    destruct (well_formed_key_chars k Hwf) as (c' & k' & _ & _ & Hkey).
    cbn [attribute_text str_value].
    apply simple_token_chars; try assumption; try reflexivity.
    + apply key_char_not_newline.
    + apply value_char_not_newline.
Qed.

(** X15. From a descriptor back to the tag. For a tag whose name is a
    word and whose attributes are simple with distinct keys, the reverse
    locator reads from the descriptor that [element_to_string] writes
    exactly the tag name and the attributes of the tag: this is the query
    it sends to the tree for that segment. *)
Theorem descriptor_round_trip (e : Element) :
  name e <> "" ->
  Str.all Char.is_word (name e) = true ->
  NoDup (map fst (attrs e)) ->
  forallb simple_attribute (attrs e) = true ->
  segment_query (element_to_string e) = (name e, attrs e).
Proof. exact (segment_query_of_descriptor e). Qed.

Lemma descriptor_round_trip_witness :
  segment_query (element_to_string h1_element)
  = (name h1_element, attrs h1_element).
Proof.
  apply (descriptor_round_trip h1_element).
  - discriminate.
  - reflexivity.
  - repeat constructor; simpl; intuition discriminate.
  - reflexivity.
Defined.

(** ** A descriptor resolves where its tag is *)

Lemma find_complete (tag : string) (wanted : dict AttrValue) (node : PageElement) :
  forall t,
    In t (tags_below node) ->
    search_tag tag wanted t = true ->
    exists r, find tag wanted node = Some r.
Proof.
  induction node as [n a contents IH | text] using PageElement_nested_ind;
    intros t Hin Hok; [|contradiction].
  cbn [find tags_below] in *.
  induction contents as [|child rest IHrest]; [contradiction|].
  inversion IH as [|? ? Hchild Hrest]; subst.
  cbn [flat_map] in Hin.
  destruct (search_tag tag wanted child) eqn:Hs; [eauto|].
  destruct (find tag wanted child) as [found|] eqn:Hf; [eauto|].
  apply in_app_or in Hin as [Hin | Hin]; [exfalso | exact (IHrest Hrest Hin)].
  destruct child as [cn ca cc | tx]; [|contradiction].
  destruct Hin as [<- | Hin]; [congruence|].
  destruct (Hchild t Hin Hok) as [r Hr]. congruence.
Qed.

Lemma get_of_member {V : Type} (d : dict V) (k : string) (v : V) :
  NoDup (map fst d) -> In (k, v) d -> Dict.get d k = Some v.
Proof.
  induction d as [|[k0 v0] d IH]; intros Hnodup Hin; [contradiction|].
  inversion Hnodup as [|? ? Hnotin Hrest]; subst. simpl.
  destruct Hin as [H | Hin].
  - injection H as -> ->. now rewrite String.eqb_refl.
  - destruct (String.eqb_spec k0 k) as [-> | Hne]; [|now apply IH].
    exfalso. apply Hnotin. change k with (fst (k, v)). now apply in_map.
Qed.

(** A tag answers the query made of its own name and simple attributes. *)
Lemma tag_matches_itself (n : string) (a : dict AttrValue) (cs : list PageElement) :
  NoDup (map fst a) ->
  forallb simple_attribute a = true ->
  search_tag n a (Tag n a cs) = true.
Proof.
  intros Hnodup Hall. cbn [search_tag]. rewrite String.eqb_refl. cbn [andb].
  apply forallb_forall. intros [k v] Hkv.
  rewrite (get_of_member a k v Hnodup Hkv).
  rewrite forallb_forall in Hall.
  destruct (simple_attribute_parts _ (Hall _ Hkv)) as (k' & s & H & _).
  injection H as -> ->. cbn [matches matches_string]. apply String.eqb_refl.
Qed.

Lemma no_bracket_no_document (s : string) :
  Str.mem "[" s = false -> Str.contains "[document]" s = false.
Proof.
  induction s as [|c s IH]; [reflexivity|].
  cbn [Str.mem]. intros H. apply orb_false_elim in H as [Hc Hs].
  cbn [Str.contains]. rewrite (IH Hs), orb_false_r.
  cbn [Str.prefix]. now rewrite Hc.
Qed.

Lemma word_not_bracket (c : ascii) :
  Char.is_word c = true -> Ascii.eqb "[" c = false.
Proof. by_cases c. Qed.

Lemma descriptor_without_bracket (e : Element) :
  Str.all Char.is_word (name e) = true ->
  forallb simple_attribute (attrs e) = true ->
  Str.mem "[" (element_to_string e) = false.
Proof.
  intros Hword Hall.
  change (element_to_string e)
    with (name e ++ String " " (Str.join " " (map attribute_text (attrs e)))).
  rewrite mem_app. cbn [Str.mem].
  rewrite (all_not_mem Char.is_word "[" (name e) word_not_bracket Hword).
  change (Ascii.eqb "[" " ") with false. cbn [orb].
  apply (all_not_mem (fun c => negb (Ascii.eqb "[" c)) "[").
  - intros c Hc. now apply negb_true_iff in Hc.
  - apply all_join; [reflexivity|].
    intros x Hx. apply in_map_iff in Hx as (a & <- & Ha).
    rewrite forallb_forall in Hall.
    destruct (simple_attribute_parts a (Hall a Ha)) as (k & s & -> & Hwf & _ & Hs & _).
    destruct (well_formed_key_chars k Hwf) as (c' & k' & _ & _ & Hkey).
    cbn [attribute_text str_value].
    apply simple_token_chars; try assumption; try reflexivity.
    + intros c Hc. now rewrite key_char_not_bracket.
    + intros c Hc. now rewrite value_char_not_bracket.
Qed.

Lemma find_app_first {A : Type} (p : A -> bool) (l1 l2 : list A) :
  List.find p (l1 ++ l2)
  = match List.find p l1 with
    | Some x => Some x
    | None => List.find p l2
    end.
Proof.
  induction l1 as [|x l1 IH]; [reflexivity|].
  simpl. destruct (p x); [reflexivity | exact IH].
Qed.

(** The query returns the first tag below the node, in document order,
    that answers it. *)
Lemma find_first_below (tag : string) (wanted : dict AttrValue) (node : PageElement) :
  find tag wanted node = List.find (search_tag tag wanted) (tags_below node).
Proof.
  induction node as [n a contents IH | text] using PageElement_nested_ind;
    [|reflexivity].
  cbn [find tags_below].
  induction contents as [|child rest IHrest]; [reflexivity|].
  inversion IH as [|? ? Hchild Hrest]; subst.
  cbn [flat_map]. rewrite find_app_first.
  destruct child as [cn ca cc | t].
  - cbn [List.find].
    destruct (search_tag tag wanted (Tag cn ca cc)); [reflexivity|].
    rewrite Hchild.
    destruct (List.find (search_tag tag wanted) (tags_below (Tag cn ca cc)));
      [reflexivity|].
    exact (IHrest Hrest).
  - cbn [search_tag List.find]. exact (IHrest Hrest).
Qed.

(** What a tag that answers a query has: the name asked for and, under
    each key asked for with a string, an attribute that offers it. *)
Lemma search_tag_sound (tag : string) (wanted : dict AttrValue) (r : PageElement) :
  search_tag tag wanted r = true ->
  tag_name r = tag
  /\ forall k s, In (k, Scalar s) wanted ->
       exists value, Dict.get (tag_attrs r) k = Some value /\ offers value s.
Proof.
  destruct r as [n a cs | t]; [|discriminate].
  cbn [search_tag tag_name tag_attrs]. intros H.
  apply andb_true_iff in H as [Hname Hattrs].
  apply String.eqb_eq in Hname. split; [now symmetry|].
  intros k s Hin. rewrite forallb_forall in Hattrs.
  specialize (Hattrs (k, Scalar s) Hin). cbn beta iota in Hattrs.
  destruct (Dict.get a k) as [[s' | l]|]; [| |discriminate].
  - exists (Scalar s'). split; [reflexivity|].
    cbn [matches matches_string] in Hattrs. now apply String.eqb_eq in Hattrs.
  - exists (Multi l). split; [reflexivity|].
    cbn [matches] in Hattrs. cbn [offers].
    apply orb_true_iff in Hattrs as [Hitem | Hjoin].
    + left. apply existsb_exists in Hitem as (item & Hitem & Heq).
      cbn [matches_string] in Heq. apply String.eqb_eq in Heq. now subst s.
    + right. apply andb_true_iff in Hjoin as [Hlen Heq].
      apply Nat.ltb_lt in Hlen. cbn [matches_string] in Heq.
      apply String.eqb_eq in Heq. now split.
Qed.

(** X16. A segment written from a tag resolves wherever that tag is.
    When a tag with a word for name and simple attributes with distinct
    keys lies below the current element, one step of the reverse locator
    on the descriptor of that tag moves to the first tag below the current
    element, in document order, that answers the query: it has the same
    name and, under each key of the descriptor, an attribute, absent
    nowhere, whose value is the string of the descriptor, or a list that
    holds that string or whose several items joined by spaces make it.
    That tag need not be the one the descriptor was written from. *)
Theorem descriptor_resolves_below
    (cur : PageElement) (n : string) (a : dict AttrValue)
    (cs : list PageElement) (up : option Element) :
  In (Tag n a cs) (tags_below cur) ->
  n <> "" ->
  Str.all Char.is_word n = true ->
  NoDup (map fst a) ->
  forallb simple_attribute a = true ->
  exists r,
    locate_step cur (element_to_string (mkElement n a up)) = r
    /\ List.find (search_tag n a) (tags_below cur) = Some r
    /\ In r (tags_below cur)
    /\ tag_name r = n
    /\ (forall k s, In (k, Scalar s) a ->
          exists value, Dict.get (tag_attrs r) k = Some value /\ offers value s)
    /\ (forall k, In k (map fst a) -> Dict.get (tag_attrs r) k <> None).
Proof.
  intros Hin Hne Hword Hnodup Hall.
  unfold locate_step.
  rewrite (no_bracket_no_document _
             (descriptor_without_bracket (mkElement n a up) Hword Hall)).
  rewrite (segment_query_of_descriptor (mkElement n a up) Hne Hword Hnodup Hall).
  cbn [name attrs].
  destruct (find_complete n a cur (Tag n a cs) Hin
              (tag_matches_itself n a cs Hnodup Hall)) as [r Hr].
  rewrite Hr. exists r.
  destruct (find_found n a cur r Hr) as [Hbelow Hok].
  destruct (search_tag_sound n a r Hok) as [Hname Hattrs].
  split; [reflexivity|].
  split; [now rewrite <- find_first_below|].
  split; [exact Hbelow|].
  split; [exact Hname|].
  split; [exact Hattrs|].
  intros k Hk. apply in_map_iff in Hk as ([k' v] & Hfst & Hkv).
  cbn [fst] in Hfst. subst k'.
  rewrite forallb_forall in Hall.
  destruct (simple_attribute_parts _ (Hall _ Hkv)) as (k'' & s & Heq & _).
  injection Heq as -> ->.
  destruct (Hattrs k'' s Hkv) as (value & Hget & _). now rewrite Hget.
Qed.

Lemma descriptor_resolves_below_witness :
  exists r,
    locate_step two_paragraphs
      (element_to_string (mkElement "p" [("id", Scalar "")] (Some document_object)))
    = r
    /\ List.find (search_tag "p" [("id", Scalar "")]) (tags_below two_paragraphs)
       = Some r
    /\ In r (tags_below two_paragraphs)
    /\ tag_name r = "p"
    /\ (forall k s, In (k, Scalar s) [("id", Scalar "")] ->
          exists value, Dict.get (tag_attrs r) k = Some value /\ offers value s)
    /\ (forall k, In k (map fst [("id", Scalar "")]) ->
          Dict.get (tag_attrs r) k <> None).
Proof.
  apply (descriptor_resolves_below two_paragraphs "p" [("id", Scalar "")]
           [NavigableString "txt"] (Some document_object)).
  - simpl. auto.
  - discriminate.
  - reflexivity.
  - repeat constructor; simpl; intuition discriminate.
  - reflexivity.
Defined.

(** An attribute that a tag lacks is not an empty attribute: the step
    [p id=] on [<p></p><p id=..>txt</p>] passes the first paragraph, which
    has no [id], and lands on the second. *)
Lemma absent_attribute_is_not_empty :
  segment_query "p id=" = ("p", [("id", Scalar "")])
  /\ search_tag "p" [("id", Scalar "")] (Tag "p" [] []) = false
  /\ locate_step two_paragraphs "p id="
     = Tag "p" [("id", Scalar "")] [NavigableString "txt"]
  /\ find_element_by_path two_paragraphs "[document]  -> p id="
     = Tag "p" [("id", Scalar "")] [NavigableString "txt"].
Proof. repeat split. Qed.

(** ** A list of values, there and back *)

Lemma repr_char_plain (c : ascii) :
  plain_char c = true -> Str.repr_char "'" c = String c "".
Proof. by_cases c. Qed.

Lemma plain_char_not_quote (c : ascii) :
  plain_char c = true -> Ascii.eqb "'" c = false.
Proof. by_cases c. Qed.

Lemma plain_char_not_comma (c : ascii) :
  plain_char c = true -> Ascii.eqb "," c = false.
Proof. by_cases c. Qed.

Lemma plain_char_list_char (c : ascii) :
  plain_char c = true -> Re.list_char c = true.
Proof. by_cases c. Qed.

Lemma plain_char_kept (c : ascii) :
  plain_char c = true -> negb (Str.mem c item_chars) = true.
Proof. by_cases c. Qed.

Lemma repr_plain (i : string) :
  plain_item i = true -> Str.repr i = String "'" (i ++ "'").
Proof.
  intros Hi. unfold Str.repr.
  rewrite (all_not_mem plain_char "'" i plain_char_not_quote Hi). cbn [andb].
  f_equal. f_equal.
  induction i as [|c i IH]; [reflexivity|].
  cbn [plain_item Str.all] in Hi. apply andb_prop in Hi as [Hc Hi].
  cbn [Str.repr_body]. rewrite (repr_char_plain c Hc), (IH Hi). reflexivity.
Qed.

Lemma split_go_without_comma (s : string) :
  Str.mem "," s = false ->
  forall cur, Str.split_go "," 0 cur s = [cur ++ s].
Proof.
  induction s as [|c s IH]; intros Hmem cur.
  - cbn [Str.split_go]. now rewrite append_nil_r.
  - cbn [Str.mem] in Hmem. apply orb_false_elim in Hmem as [Hc Hs].
    cbn [Str.split_go Str.prefix]. rewrite Hc. cbn [andb].
    rewrite (IH Hs). now rewrite append_assoc.
Qed.

Lemma split_go_at_comma (a r : string) :
  Str.mem "," a = false ->
  forall cur,
    Str.split_go "," 0 cur (a ++ String "," r)
    = (cur ++ a) :: Str.split_go "," 0 "" r.
Proof.
  induction a as [|c a IH]; intros Hmem cur.
  - cbn [append Str.split_go Str.prefix].
    change (Ascii.eqb "," ",") with true. cbn [andb].
    now rewrite append_nil_r.
  - cbn [Str.mem] in Hmem. apply orb_false_elim in Hmem as [Hc Ha].
    cbn [append Str.split_go Str.prefix]. rewrite Hc. cbn [andb].
    rewrite (IH Ha). now rewrite append_assoc.
Qed.

Lemma repr_without_comma (i : string) :
  plain_item i = true -> Str.mem "," (Str.repr i) = false.
Proof.
  intros Hi. rewrite (repr_plain i Hi). cbn [Str.mem].
  rewrite mem_app. rewrite (all_not_mem plain_char "," i plain_char_not_comma Hi).
  reflexivity.
Qed.

(** Splitting the printed list at the commas gives the printed items, all
    but the first after a space. *)
Lemma split_printed_list (items : list string) :
  forallb plain_item items = true ->
  forall i pre,
    plain_item i = true ->
    Str.mem "," pre = false ->
    Str.split_go "," 0 "" (pre ++ Str.join ", " (map Str.repr (i :: items)))
    = (pre ++ Str.repr i) :: map (fun x => " " ++ Str.repr x) items.
Proof.
  induction items as [|j items IH]; intros Hall i pre Hi Hpre.
  - cbn [map Str.join].
    rewrite split_go_without_comma; [reflexivity|].
    rewrite mem_app, Hpre. now rewrite repr_without_comma.
  - cbn [forallb] in Hall. apply andb_prop in Hall as [Hj Hall].
    change (Str.join ", " (map Str.repr (i :: j :: items)))
      with (Str.repr i ++ String "," (" " ++ Str.join ", " (map Str.repr (j :: items)))).
    rewrite <- append_assoc.
    rewrite split_go_at_comma.
    + cbn [append map]. f_equal.
      exact (IH Hall j " " Hj eq_refl).
    + rewrite mem_app, Hpre. now rewrite repr_without_comma.
Qed.

Lemma lstrip_all (p : ascii -> bool) (pre s : string) :
  Str.all p pre = true -> Str.lstrip_by p (pre ++ s) = Str.lstrip_by p s.
Proof.
  induction pre as [|c pre IH]; intros H; [reflexivity|].
  cbn [Str.all] in H. apply andb_prop in H as [Hc Hpre].
  cbn [append Str.lstrip_by]. now rewrite Hc, (IH Hpre).
Qed.

Lemma rstrip_all (p : ascii -> bool) (s : string) :
  Str.all p s = true -> Str.rstrip_by p s = "".
Proof.
  induction s as [|c s IH]; intros H; [reflexivity|].
  cbn [Str.all] in H. apply andb_prop in H as [Hc Hs].
  cbn [Str.rstrip_by]. now rewrite (IH Hs), Hc.
Qed.

Lemma rstrip_tail (p : ascii -> bool) (mid post : string) :
  Str.all (fun c => negb (p c)) mid = true ->
  Str.all p post = true ->
  Str.rstrip_by p (mid ++ post) = mid.
Proof.
  intros Hmid Hpost. induction mid as [|c mid IH].
  - now apply rstrip_all.
  - cbn [Str.all] in Hmid. apply andb_prop in Hmid as [Hc Hmid].
    apply negb_true_iff in Hc.
    cbn [append Str.rstrip_by]. rewrite (IH Hmid).
    destruct mid; [now rewrite Hc | reflexivity].
Qed.

(** Stripping removes what surrounds a word of characters it keeps. *)
Lemma strip_between (p : ascii -> bool) (pre mid post : string) :
  Str.all p pre = true ->
  Str.all (fun c => negb (p c)) mid = true ->
  Str.all p post = true ->
  Str.strip_by p (pre ++ mid ++ post) = mid.
Proof.
  intros Hpre Hmid Hpost. unfold Str.strip_by.
  rewrite (lstrip_all p pre _ Hpre).
  destruct mid as [|c mid].
  - cbn [append].
    assert (Hl : Str.lstrip_by p post = "").
    { clear -Hpost. induction post as [|d post IH]; [reflexivity|].
      cbn [Str.all] in Hpost. apply andb_prop in Hpost as [Hd Hpost].
      cbn [Str.lstrip_by]. now rewrite Hd, (IH Hpost). }
    now rewrite Hl.
  - assert (Hc := Hmid). cbn [Str.all] in Hc.
    apply andb_prop in Hc as [Hc _]. apply negb_true_iff in Hc.
    cbn [append Str.lstrip_by]. rewrite Hc.
    change (String c (mid ++ post)) with (String c mid ++ post).
    now apply rstrip_tail.
Qed.

Lemma strip_printed_item (i pre : string) :
  plain_item i = true ->
  Str.all (fun c => Str.mem c item_chars) pre = true ->
  Str.strip_chars item_chars (pre ++ Str.repr i) = i.
Proof.
  intros Hi Hpre. rewrite (repr_plain i Hi).
  unfold Str.strip_chars.
  replace (pre ++ String "'" (i ++ "'")) with ((pre ++ "'") ++ i ++ "'")
    by now rewrite append_assoc.
  apply strip_between.
  - rewrite all_app, Hpre. reflexivity.
  - apply (all_impl plain_char); [|exact Hi]. apply plain_char_kept.
  - reflexivity.
Qed.

Lemma all_join_sep (p : ascii -> bool) (sep : string) (l : list string) :
  Str.all p sep = true ->
  (forall x, In x l -> Str.all p x = true) ->
  Str.all p (Str.join sep l) = true.
Proof.
  intros Hsep. induction l as [|x l IH]; intros Hall; [reflexivity|].
  destruct l as [|y l]; [apply Hall; now left|].
  change (Str.join sep (x :: y :: l)) with (x ++ sep ++ Str.join sep (y :: l)).
  rewrite !all_app, (Hall x (or_introl eq_refl)), Hsep, IH; [reflexivity|].
  intros z Hz. apply Hall. now right.
Qed.

(** X17. Round trip of a list value. For a key that is a word and a
    non-empty list of plain items (printable characters, none of them a
    space, a quote, a comma, a bracket or a backslash), parsing the text
    that [element_to_string] writes for the attribute gives back the key
    and the list of the items. The empty list does not come back: it is
    written as two brackets and read as a list holding one empty string. *)
Theorem parse_attributes_list_round_trip (k : string) :
  k <> "" ->
  Str.all Char.is_word k = true ->
  (forall items,
      items <> [] ->
      forallb plain_item items = true ->
      parse_attributes (attribute_text (k, Multi items)) = [(k, Multi items)])
  /\ parse_attributes (attribute_text (k, Multi [])) = [(k, Multi [""])].
Proof.
  intros Hne Hword. split.
  - intros items Hitems Hall.
    destruct items as [|i items]; [congruence|].
    cbn [forallb] in Hall. apply andb_prop in Hall as [Hi Hall].
    cbn [attribute_text str_value].
    change (k ++ "=" ++ "[" ++ Str.join ", " (map Str.repr (i :: items)) ++ "]")
      with (k ++ "=[" ++ Str.join ", " (map Str.repr (i :: items)) ++ "]").
    rewrite parse_attributes_word_list; [| exact Hne | exact Hword |].
    + do 3 f_equal. unfold Str.split.
      change (Str.join ", " (map Str.repr (i :: items)))
        with ("" ++ Str.join ", " (map Str.repr (i :: items))).
      rewrite (split_printed_list items Hall i "" Hi eq_refl).
      cbn [map append]. f_equal.
      * exact (strip_printed_item i "" Hi eq_refl).
      * rewrite map_map. rewrite <- (map_id items) at 2.
        apply map_ext_in. intros x Hx.
        rewrite forallb_forall in Hall.
        exact (strip_printed_item x " " (Hall x Hx) eq_refl).
    + apply all_join_sep; [reflexivity|].
      intros x Hx. apply in_map_iff in Hx as (y & <- & Hy).
      assert (Hplain : plain_item y = true).
      { destruct Hy as [<- | Hy]; [exact Hi|].
        rewrite forallb_forall in Hall. now apply Hall. }
      rewrite (repr_plain y Hplain). cbn [Str.all].
      change (Re.list_char "'") with true. cbn [andb].
      rewrite all_app.
      rewrite (all_impl plain_char Re.list_char y plain_char_list_char Hplain).
      reflexivity.
  - cbn [attribute_text str_value map Str.join].
    change (k ++ "=" ++ "[" ++ "" ++ "]") with (k ++ "=[" ++ "" ++ "]").
    rewrite parse_attributes_word_list; [reflexivity | exact Hne | exact Hword | reflexivity].
Qed.

Lemma parse_attributes_list_round_trip_witness :
  parse_attributes (attribute_text ("class", Multi ["btn"; "active"; "col-md-4"]))
  = [("class", Multi ["btn"; "active"; "col-md-4"])].
Proof.
  destruct (parse_attributes_list_round_trip "class") as [H _].
  - discriminate.
  - reflexivity.
  - apply H; [discriminate | reflexivity].
Defined.

(** ** The batch, target by target *)

Lemma most_similar_loop_from (soup : PageElement) (v : CountVectorizer)
    (paths : list string) :
  forall acc,
    most_similar_loop soup v paths acc
    = match most_similar_loop soup v paths [] with
      | OK out => OK (acc ++ out)%list
      | Raise e => Raise e
      end.
Proof.
  induction paths as [|p paths IH]; intros acc; cbn [most_similar_loop].
  - now rewrite app_nil_r.
  - destruct (find_most_similar_element_path soup p v) as [r|e]; [|reflexivity].
    cbn [bind]. rewrite IH. rewrite (IH (match r with EmptyString => [] | _ => _ end)).
    destruct (most_similar_loop soup v paths []) as [out|e]; [|reflexivity].
    destruct r; [reflexivity | now rewrite <- app_assoc].
Qed.

Lemma most_similar_loop_app (soup : PageElement) (v : CountVectorizer)
    (first second : list string) :
  forall acc,
    most_similar_loop soup v (first ++ second)%list acc
    = bind (most_similar_loop soup v first acc) (most_similar_loop soup v second).
Proof.
  induction first as [|p first IH]; intros acc; cbn [app most_similar_loop];
    [reflexivity|].
  destruct (find_most_similar_element_path soup p v) as [r|e]; [|reflexivity].
  cbn [bind]. apply IH.
Qed.

(** X18. The targets of a batch do not influence one another: the batch
    of two lists of targets put end to end returns the results of the
    first list followed by those of the second, and it fails as soon as
    the batch of the first list fails. *)
Theorem get_most_similar_paths_app
    (soup : PageElement) (v : CountVectorizer) (first second : list string) :
  get_most_similar_paths soup (first ++ second)%list v
  = match get_most_similar_paths soup first v with
    | OK out1 =>
        match get_most_similar_paths soup second v with
        | OK out2 => OK (out1 ++ out2)%list
        | Raise e => Raise e
        end
    | Raise e => Raise e
    end.
Proof.
  unfold get_most_similar_paths. rewrite most_similar_loop_app.
  destruct (most_similar_loop soup v first []) as [out1|e]; [|reflexivity].
  cbn [bind]. apply most_similar_loop_from.
Qed.

(** X19. A document with a single element answers every target with
    the path of that element, whatever the target and however small the
    similarity: the matcher has no threshold. *)
Theorem single_candidate_always_wins
    (soup : PageElement) (el : Element) (path : string) (v : CountVectorizer) :
  find_all soup = [el] ->
  vocabulary_ v <> [] ->
  find_most_similar_element_path soup path v = OK (generate_element_path el).
Proof.
  intros Hdoc Hvoc.
  destruct (most_similar_spec soup path v Hvoc) as (i & r & Hres & Hnth & _).
  - rewrite Hdoc. discriminate.
  - rewrite Hres. f_equal. unfold all_elements_paths in Hnth.
    rewrite Hdoc in Hnth. cbn [map] in Hnth.
    destruct i as [|i]; [now injection Hnth | destruct i; discriminate].
Qed.

Lemma single_candidate_always_wins_witness :
  find_most_similar_element_path html_only "table -> tr -> td" div_vocabulary
  = OK (generate_element_path html_element).
Proof.
  apply (single_candidate_always_wins html_only html_element
           "table -> tr -> td" div_vocabulary).
  - reflexivity.
  - discriminate.
Defined.
